(** * Presubmit-job supersession and the skip-command resolver

    A shallow embedding of [prow/pjutil/abort.go] (the aborter that
    terminates superseded presubmit jobs) and of the decision rule of the
    skip plugin, together with the properties the specification states
    about them. *)

From stdpp Require Import gmap strings list fin_maps pretty.

Open Scope Z_scope.

(** ** Job records ([prowapi.ProwJob])

    [abort.go] imports the job record from [k8s.io/test-infra/prow/kube],
    which is not among the sources.  The records below carry the fields
    that [abort.go] reads and writes, under their Go field paths. *)

(** Modelled from the spec: the job kind, "enumerated: presubmit | other";
    [abort.go] names the constant [PresubmitJob] only. *)
Inductive ProwJobType := PresubmitJob | OtherJob.

(** Modelled from the spec: the lifecycle state, "enumerated: pending,
    success, failure, error, aborted"; [abort.go] names the constant
    [AbortedState] only. *)
Inductive ProwJobState :=
  | PendingState | SuccessState | FailureState | ErrorState | AbortedState.

#[global] Instance ProwJobType_eq_dec : EqDecision ProwJobType.
Proof. solve_decision. Defined.
#[global] Instance ProwJobState_eq_dec : EqDecision ProwJobState.
Proof. solve_decision. Defined.

(** [Spec.Refs.Pulls[0].Number], [Spec.Refs.Org], [Spec.Refs.Repo]. *)
Record Pull := { Number : Z }.

Record Refs := { Org : string; Repo : string; Pulls : list Pull }.

(** [Spec.Type], [Spec.Job], [Spec.Refs].  The refs of a job are reached
    through a reference that may be [nil] (a job without refs); reading a
    field through it then panics, like an index out of range. *)
Record ProwJobSpec := {
  Type_ : ProwJobType;
  Job : string;
  Refs_ : option Refs
}.

(** Modelled from the spec: the completion attribute of a job record.  The
    methods [Complete] and [SetComplete] of [prowapi.ProwJob] are declared
    outside [abort.go]; the data model describes a completion flag, read
    by the first and set by the second.  [StartTime] is an instant, on
    which [Before] is the strict order. *)
Record ProwJobStatus := {
  StartTime : Z;
  Completed : bool;
  State : ProwJobState
}.

(** [ObjectMeta.Name], the identity used by the persistence collaborator. *)
Record ObjectMeta := { Name : string }.

Record ProwJob := {
  ObjectMeta_ : ObjectMeta;
  Spec : ProwJobSpec;
  Status : ProwJobStatus
}.

Definition Complete (j : ProwJob) : bool := Completed (Status j).

Definition SetComplete (j : ProwJob) : ProwJob :=
  {| ObjectMeta_ := ObjectMeta_ j;
     Spec := Spec j;
     Status := {| StartTime := StartTime (Status j);
                  Completed := true;
                  State := State (Status j) |} |}.

(** The assignment [j.Status.State = s]. *)
Definition SetState (s : ProwJobState) (j : ProwJob) : ProwJob :=
  {| ObjectMeta_ := ObjectMeta_ j;
     Spec := Spec j;
     Status := {| StartTime := StartTime (Status j);
                  Completed := Completed (Status j);
                  State := s |} |}.

(** The method [Before] of [metav1.Time], called on two non-nil receivers. *)
Definition Before (t u : Z) : bool := t <? u.

(** ** The identity key ([jobIndentifier]) *)

Record jobIndentifier := {
  job : string;
  organization : string;
  repository : string;
  pullRequest : Z
}.

#[global] Instance jobIndentifier_eq_dec : EqDecision jobIndentifier.
Proof. solve_decision. Defined.

#[global] Instance jobIndentifier_countable : Countable jobIndentifier.
Proof.
  refine (inj_countable'
            (fun i => (job i, organization i, repository i, pullRequest i))
            (fun t => let '(j, o, r, p) := t in
                      {| job := j; organization := o;
                         repository := r; pullRequest := p |}) _).
  by intros [].
Defined.

(** ** Collaborators

    The aborter talks to two collaborators: the [cleanup] callback and the
    client's [ReplaceProwJob].  Both are deterministic functions of the
    calls made so far, which covers any stateful implementation started
    from a fixed state.  Go's [error] values are kept as their messages. *)

Definition error := string.

Inductive Event :=
  | EvCleanup (pj : ProwJob)
  | EvReplace (name : string) (pj : ProwJob).

(** What the logger receives: the warning of line 83 and the transition
    record of lines 89-91. *)
Inductive LogEntry :=
  | Warn (err : error) (pj : ProwJob)
  | Info (pj : ProwJob) (from to : ProwJobState).

(** How a call of the function ends: it returns its [error] result ([None]
    is [nil]), or it panics (index out of range, nil dereference). *)
Inductive Result :=
  | Returned (err : option error)
  | Panicked.

(** What the body of the [for] statement does next. *)
Inductive Control :=
  | Next
  | Stop (r : Result).

(** The variables of the loop: the caller's slice, the map [dupes], and the
    calls and log lines emitted so far. *)
Record LoopState := {
  pjs : list ProwJob;
  dupes : gmap jobIndentifier nat;
  trace : list Event;
  log : list LogEntry
}.

(** The assignment [dupes[ji] = i] seen from the loop state. *)
Definition setDupes (d : gmap jobIndentifier nat) (st : LoopState) : LoopState :=
  {| pjs := pjs st; dupes := d; trace := trace st; log := log st |}.

(** Lines 59-78: what one iteration decides before it has any effect. *)
Inductive Selection :=
  | Skip (d : gmap jobIndentifier nat)
  | Cancel (cancelIndex : nat) (d : gmap jobIndentifier nat)
  | Panics.

Definition isPresubmit (t : ProwJobType) : bool :=
  match t with PresubmitJob => true | OtherJob => false end.

(** Lines 63-68: the composite literal, [refs] being [pj.Spec.Refs] and [p]
    being [pj.Spec.Refs.Pulls[0]]. *)
Definition identifier (pj : ProwJob) (refs : Refs) (p : Pull) : jobIndentifier :=
  {| job := Job (Spec pj);
     organization := Org refs;
     repository := Repo refs;
     pullRequest := Number p |}.

Definition select (l : list ProwJob) (d : gmap jobIndentifier nat)
    (i : nat) (pj : ProwJob) : Selection :=
  if Complete pj || negb (isPresubmit (Type_ (Spec pj))) then Skip d
  else
    match Refs_ (Spec pj) with
    | None => Panics
    | Some refs =>
      match Pulls refs with
      | [] => Panics
      | p :: _ =>
        let ji := identifier pj refs p in
        match d !! ji with
        | None => Skip (<[ji := i]> d)
        | Some prev =>
          match l !! prev with
          | None => Panics
          | Some pp =>
            if Before (StartTime (Status pp)) (StartTime (Status pj))
            then Cancel prev (<[ji := i]> d)
            else Cancel i d
          end
        end
      end
    end.

(** The loop state on entry. *)
Definition entry (l : list ProwJob) : LoopState :=
  {| pjs := l; dupes := ∅; trace := []; log := [] |}.

Section Aborter.

Variable cleanup : list Event → ProwJob → option error.
Variable ReplaceProwJob : list Event → string → ProwJob → ProwJob + error.

(** Lines 79-97: cancel the job in slot [cancelIndex]. *)
Definition cancel (cancelIndex : nat) (st : LoopState)
    : LoopState * Control :=
  match pjs st !! cancelIndex with
  | None => (st, Stop Panicked)
  | Some toCancel =>
    let err := cleanup (trace st) toCancel in
    let tr1 := trace st ++ [EvCleanup toCancel] in
    let log1 := match err with
                | Some e => log st ++ [Warn e toCancel]
                | None => log st
                end in
    let toCancel1 := SetComplete toCancel in
    let prevState := State (Status toCancel1) in
    let toCancel2 := SetState AbortedState toCancel1 in
    let log2 := log1 ++ [Info toCancel2 prevState (State (Status toCancel2))] in
    let name := Name (ObjectMeta_ toCancel2) in
    let tr2 := tr1 ++ [EvReplace name toCancel2] in
    match ReplaceProwJob tr1 name toCancel2 with
    | inr e =>
      ({| pjs := pjs st; dupes := dupes st; trace := tr2; log := log2 |},
       Stop (Returned (Some e)))
    | inl npj =>
      ({| pjs := <[cancelIndex := npj]> (pjs st); dupes := dupes st;
          trace := tr2; log := log2 |},
       Next)
    end
  end.

(** One iteration of the [for i, pj := range pjs] statement. *)
Definition body (i : nat) (st : LoopState) : LoopState * Control :=
  match pjs st !! i with
  | None => (st, Stop Panicked)
  | Some pj =>
    match select (pjs st) (dupes st) i pj with
    | Skip d => (setDupes d st, Next)
    | Cancel c d => cancel c (setDupes d st)
    | Panics => (st, Stop Panicked)
    end
  end.

Fixpoint loop (idx : list nat) (st : LoopState) : LoopState * Result :=
  match idx with
  | [] => (st, Returned None)
  | i :: rest =>
    match body i st with
    | (st', Next) => loop rest st'
    | (st', Stop r) => (st', r)
    end
  end.

Definition TerminateOlderPresubmitJobs (l : list ProwJob)
    : LoopState * Result :=
  loop (seq 0 (length l)) (entry l).

End Aborter.

(** ** Vocabulary of the properties *)

(** A job the loop looks at: incomplete and of kind presubmit (the negation
    of the guard of line 59). *)
Definition eligible (pj : ProwJob) : bool :=
  negb (Complete pj) && isPresubmit (Type_ (Spec pj)).

(** The first pull-request ref of a job, with the refs it belongs to. *)
Definition firstPull (pj : ProwJob) : option (Refs * Pull) :=
  match Refs_ (Spec pj) with
  | Some refs =>
    match Pulls refs with
    | p :: _ => Some (refs, p)
    | [] => None
    end
  | None => None
  end.

(** The identity key of a job, when it has a first pull-request ref. *)
Definition key (pj : ProwJob) : option jobIndentifier :=
  match firstPull pj with
  | Some (refs, p) => Some (identifier pj refs p)
  | None => None
  end.

(** Slot [j] of [l] holds an incomplete presubmit job of key [k]. *)
Definition member (l : list ProwJob) (k : jobIndentifier) (j : nat) : Prop :=
  ∃ pj, l !! j = Some pj ∧ eligible pj = true ∧ key pj = Some k.

(** Start time of the job in slot [j]. *)
Definition start (l : list ProwJob) (j : nat) : Z :=
  match l !! j with Some pj => StartTime (Status pj) | None => 0 end.

(** The record lines 86-88 make of [r]. *)
Definition aborted (r : ProwJob) : ProwJob :=
  SetState AbortedState (SetComplete r).

(** The two calls that cancelling a record [r] makes. *)
Definition calls (r : ProwJob) : list Event :=
  [EvCleanup r; EvReplace (Name (ObjectMeta_ (aborted r))) (aborted r)].

(** The calls made by cancelling the slots [cs] of [l], in that order. *)
Definition history (l : list ProwJob) (cs : list nat) : list Event :=
  flat_map (fun c => match l !! c with Some r => calls r | None => [] end) cs.

(** The selections of a whole scan, without the effects: the values that
    [cancelIndex] takes, in order, and how the scan ends. *)
Inductive ScanEnd :=
  | ScanDone (d : gmap jobIndentifier nat)
  | ScanPanic.

Fixpoint scan (l : list ProwJob) (idx : list nat) (d : gmap jobIndentifier nat)
    : list nat * ScanEnd :=
  match idx with
  | [] => ([], ScanDone d)
  | i :: rest =>
    match l !! i with
    | None => ([], ScanPanic)
    | Some pj =>
      match select l d i pj with
      | Skip d' => scan l rest d'
      | Cancel c d' => let '(cs, e) := scan l rest d' in (c :: cs, e)
      | Panics => ([], ScanPanic)
      end
    end
  end.

Definition endResult (e : ScanEnd) : Result :=
  match e with ScanDone _ => Returned None | ScanPanic => Panicked end.

(** Which of two duplicates of equal start time survives. *)
Inductive TieBreak := TowardEarlier | TowardLater.

Definition wins (t : TieBreak) (r j : nat) : Prop :=
  match t with TowardEarlier => (r ≤ j)%nat | TowardLater => (j ≤ r)%nat end.

(** Dedup completeness, for a set [cs] of cancelled slots: every group of
    incomplete presubmit jobs of one key has exactly one slot [r] left out
    of [cs]; it has the greatest start time of the group, ties between
    equal start times being decided by [t]. *)
Definition keepsNewest (t : TieBreak) (l : list ProwJob) (cs : list nat) : Prop :=
  ∀ k j, member l k j →
    ∃ r, member l k r ∧ (r ∉ cs) ∧
      ∀ j', member l k j' →
        start l j' ≤ start l r ∧
        (start l j' = start l r → wins t r j') ∧
        (j' ≠ r → j' ∈ cs).

(** The arguments of the replace calls of a trace. *)
Definition replaceCalls (tr : list Event) : list (string * ProwJob) :=
  flat_map (fun ev => match ev with EvReplace n r => [(n, r)] | _ => [] end) tr.

(** Two records that differ at most in their lifecycle state. *)
Definition sameButState (r r' : ProwJob) : Prop :=
  SetState AbortedState r = SetState AbortedState r'.

Definition eventButState (ev ev' : Event) : Prop :=
  match ev, ev' with
  | EvCleanup r, EvCleanup r' => sameButState r r'
  | EvReplace n r, EvReplace n' r' => (n = n') ∧ (r = r')
  | _, _ => False
  end.

(** The entries of [dupes] name slots already visited that hold an incomplete
    presubmit job of the entry's key. *)
Definition WF (l : list ProwJob) (d : gmap jobIndentifier nat) (i : nat) : Prop :=
  ∀ k j, d !! k = Some j → (j < i)%nat ∧ member l k j.

(** What a caller can observe of the loop state. *)
Definition obs (st : LoopState) : list ProwJob * list Event * list LogEntry :=
  (pjs st, trace st, log st).

Section Replay.

Variable cleanup : list Event → ProwJob → option error.
Variable ReplaceProwJob : list Event → string → ProwJob → ProwJob + error.

(** The effects of a run whose selections are [cs]. *)
Fixpoint cancelAll (cs : list nat) (st : LoopState) : LoopState * Control :=
  match cs with
  | [] => (st, Next)
  | c :: cs' =>
    match cancel cleanup ReplaceProwJob c st with
    | (st', Next) => cancelAll cs' st'
    | (st', Stop r) => (st', Stop r)
    end
  end.

End Replay.

(** The invariant of the scan after the slots below [i], [cs] being the
    slots selected so far. *)
Definition Inv (l : list ProwJob) (i : nat) (d : gmap jobIndentifier nat)
    (cs : list nat) : Prop :=
  WF l d i ∧
  (∀ k r, d !! k = Some r →
     (r ∉ cs) ∧
     ∀ j, (j < i)%nat → member l k j →
       start l j ≤ start l r ∧
       (start l j = start l r → (r ≤ j)%nat) ∧
       (j ≠ r → j ∈ cs)) ∧
  (∀ c, c ∈ cs → (c < i)%nat ∧ ∃ k, member l k c) ∧
  NoDup cs ∧
  (∀ j k, (j < i)%nat → member l k j → is_Some (d !! k)).

(** The slice [l'] is [l] with each slot of [ok] holding what
    [ReplaceProwJob] returned for it, the calls before the scan being
    [tr]; the other slots are as in [l]. *)
Definition replaced (ReplaceProwJob : list Event → string → ProwJob → ProwJob + error)
    (tr : list Event) (l : list ProwJob) (ok : list nat) (l' : list ProwJob)
    : Prop :=
  length l' = length l ∧
  (∀ j, j ∉ ok → l' !! j = l !! j) ∧
  (∀ m c, ok !! m = Some c →
     ∃ r npj, l !! c = Some r ∧
       ReplaceProwJob (tr ++ history l (take m ok) ++ [EvCleanup r])
         (Name (ObjectMeta_ (aborted r))) (aborted r) = inl npj ∧
       l' !! c = Some npj).

(** The arguments of the cleanup calls of a trace. *)
Definition cleanupCalls (tr : list Event) : list ProwJob :=
  flat_map (fun ev => match ev with EvCleanup r => [r] | _ => [] end) tr.

(** No two incomplete presubmit jobs of [l] have the same identity key. *)
Definition distinctKeys (l : list ProwJob) : Prop :=
  ∀ k i j, member l k i → member l k j → i = j.

(** Lines 41-44: the method [String] of [jobIndentifier], that is
    [fmt.Sprintf("%s %s/%s#%d", ...)]; [%d] prints the decimal digits of
    the number, after a minus sign when it is negative. *)
Definition jobIndentifier_String (i : jobIndentifier) : string :=
  job i +:+ " " +:+ organization i +:+ "/" +:+ repository i +:+ "#" +:+
  pretty (pullRequest i).

(** What a successful run leaves behind, for a tie-break [t]: the slots
    [cs] it cancelled are pairwise distinct incomplete presubmit jobs;
    each key keeps exactly one slot out of [cs], the newest, ties decided
    by [t]; the calls made are one cleanup and one replace, on the aborted
    record, for each slot of [cs] in turn; the other slots are untouched. *)
Definition dedupOutcome (t : TieBreak) (l : list ProwJob) (st : LoopState) : Prop :=
  ∃ cs, NoDup cs ∧
    (∀ c, c ∈ cs → ∃ k, member l k c) ∧
    keepsNewest t l cs ∧
    trace st = history l cs ∧
    (∀ j, j ∉ cs → pjs st !! j = l !! j).

(** ** Sample collaborators and inputs *)

Module Sample.

Definition presubmit (name job : string) (pr start : Z) : ProwJob :=
  {| ObjectMeta_ := {| Name := name |};
     Spec := {| Type_ := PresubmitJob; Job := job;
                Refs_ := Some {| Org := "org"; Repo := "repo";
                                 Pulls := [ {| Number := pr |} ] |} |};
     Status := {| StartTime := start; Completed := false;
                  State := PendingState |} |}.

(** A cleanup that always succeeds, and one that always fails. *)
Definition cleanupOk : list Event → ProwJob → option error := fun _ _ => None.
Definition cleanupFails : list Event → ProwJob → option error :=
  fun _ _ => Some "cleanup failed".

(** A store that returns the record it was given, and one that refuses
    the job of a given name. *)
Definition store : list Event → string → ProwJob → ProwJob + error :=
  fun _ _ pj => inl pj.
Definition storeRefusing (bad : string)
    : list Event → string → ProwJob → ProwJob + error :=
  fun _ name pj => if String.eqb name bad then inr "conflict" else inl pj.

(** Two runs of one check on one pull request, started at the same instant. *)
Definition tied : list ProwJob :=
  [presubmit "first" "unit" 7 100; presubmit "second" "unit" 7 100].

(** Four runs of one check, and a finished one of the same key. *)
Definition chain : list ProwJob :=
  [presubmit "a" "unit" 7 100; presubmit "b" "unit" 7 100;
   presubmit "c" "unit" 7 300; presubmit "d" "unit" 7 200;
   SetComplete (presubmit "e" "unit" 7 400)].

(** The store refuses job "a", the second job the run on [chain] cancels. *)
Definition refusing : list Event → string → ProwJob → ProwJob + error :=
  storeRefusing "a".

(** [chain] with other lifecycle states. *)
Definition chainOtherStates : list ProwJob :=
  map (SetState FailureState) chain.

(** Runs of one check on two pull requests. *)
Definition apart : list ProwJob :=
  [presubmit "x" "unit" 7 100; presubmit "y" "unit" 8 100].

(** An incomplete presubmit job without refs. *)
Definition bare : ProwJob :=
  {| ObjectMeta_ := {| Name := "bare" |};
     Spec := {| Type_ := PresubmitJob; Job := "unit"; Refs_ := None |};
     Status := {| StartTime := 100; Completed := false;
                  State := PendingState |} |}.

End Sample.

(** * The skip-command resolver

    The handler of the skip plugin ([handle], called by [TestSkipStatus])
    is not among the sources, only its test is.  The types below follow
    the literals of [skip_test.go]; the decision rule and the fan-out of
    status writes follow section 4.2 of the specification. *)

Module Skip.

(** [scallywag.Status] and its states. *)
Inductive StatusState :=
  | StatusSuccess | StatusFailure | StatusPending | StatusError.

Record Status := {
  State : StatusState;
  Description : string;
  Context : string
}.

(** [config.Presubmit], with the context name of its embedded reporter. *)
Record Reporter := { ReporterContext : string }.

Record Presubmit := {
  Optional : bool;
  Trigger : string;
  RerunCommand : string;
  Reporter_ : Reporter
}.

Definition context (p : Presubmit) : string := ReporterContext (Reporter_ p).

(** [scallywag.GenericCommentEvent], with the head commit of the pull
    request already resolved. *)
Inductive GenericCommentEventAction :=
  | GenericCommentActionCreated
  | GenericCommentActionEdited
  | GenericCommentActionDeleted.

Record Repository := { Owner : string; RepoName : string }.

Record GenericCommentEvent := {
  IsPR : bool;
  IssueState : string;
  Action : GenericCommentEventAction;
  Body : string;
  IssueNumber : Z;
  Repo_ : Repository;
  HeadSHA : string
}.

(** A call of the host's create-status operation. *)
Record Write := { commit : string; status : Status }.

(** What an invocation leaves behind: the statuses posted on the head
    commit, keyed by context name (at most one per name), the writes
    issued, in order, and the errors of those that failed. *)
Record Outcome := {
  posted : gmap string Status;
  issued : list Write;
  failures : list error
}.

Definition failedOrPending (s : StatusState) : bool :=
  match s with
  | StatusFailure | StatusPending => true
  | StatusSuccess | StatusError => false
  end.

(** Modelled from the spec: the status that the missing handler posts for
    a skipped context. *)
Definition skipped (p : Presubmit) : Status :=
  {| State := StatusSuccess; Description := "Skipped"; Context := context p |}.

(** Modelled from the spec: the status update that the missing handler
    issues for an eligible definition, against the head commit. *)
Definition skipWrite (e : GenericCommentEvent) (p : Presubmit) : Write :=
  {| commit := HeadSHA e; status := skipped p |}.

Section Resolver.

(** Recognition of the skip command in a comment body. *)
Variable skipRe : string → bool.
(** The compiled trigger pattern of a definition, applied to a body. *)
Variable TriggerMatches : Presubmit → string → bool.
(** The host's create-status operation, after the writes issued so far. *)
Variable CreateStatus : list Write → Write → option error.

(** Modelled from the spec: the precondition gating of the handler, which
    is missing from the sources: a comment on a pull request, open,
    newly created, whose body carries the skip command. *)
Definition gate (e : GenericCommentEvent) : bool :=
  IsPR e && String.eqb (IssueState e) "open" &&
  match Action e with GenericCommentActionCreated => true | _ => false end &&
  skipRe (Body e).

(** Modelled from the spec: the decision rule of the missing handler, for
    one definition: optional, its context posted with state failure or
    pending, and its own trigger not matched by the body. *)
Definition eligible (e : GenericCommentEvent) (existing : gmap string Status)
    (p : Presubmit) : bool :=
  Optional p &&
  match existing !! context p with
  | Some s => failedOrPending (State s)
  | None => false
  end &&
  negb (TriggerMatches p (Body e)).

(** Modelled from the spec: one status update of the missing handler; a
    failure is collected and does not stop the remaining updates. *)
Definition post (w : Write) (o : Outcome) : Outcome :=
  match CreateStatus (issued o) w with
  | None =>
    {| posted := <[Context (status w) := status w]> (posted o);
       issued := issued o ++ [w];
       failures := failures o |}
  | Some err =>
    {| posted := posted o;
       issued := issued o ++ [w];
       failures := failures o ++ [err] |}
  end.

(** Modelled from the spec: the fan-out of the missing handler, one status
    update for every eligible definition, in the order of the definitions;
    eligibility is judged on the statuses given on entry. *)
Fixpoint resolve (e : GenericCommentEvent) (existing : gmap string Status)
    (presubmits : list Presubmit) (o : Outcome) : Outcome :=
  match presubmits with
  | [] => o
  | p :: rest =>
    resolve e existing rest
      (if eligible e existing p then post (skipWrite e p) o else o)
  end.

(** Modelled from the spec: the resolver proper ([ResolveSkips] of section
    4.2), which the missing handler runs once the gate has been passed. *)
Definition ResolveSkips (e : GenericCommentEvent) (presubmits : list Presubmit)
    (existing : gmap string Status) : Outcome :=
  resolve e existing presubmits
    {| posted := existing; issued := []; failures := [] |}.

(** Modelled from the spec: the single aggregate error that the missing
    handler surfaces to its caller. *)
Definition aggregate (errs : list error) : option error :=
  match errs with
  | [] => None
  | _ => Some (String.concat "; " errs)
  end.

(** Modelled from the spec: the missing handler [handle] of the skip
    plugin, the gate followed by the resolver. *)
Definition handle (e : GenericCommentEvent) (presubmits : list Presubmit)
    (existing : gmap string Status) : Outcome * option error :=
  if gate e
  then let o := ResolveSkips e presubmits existing in (o, aggregate (failures o))
  else ({| posted := existing; issued := []; failures := [] |}, None).

(** The writes of an outcome that target the context [c]. *)
Definition writesTo (c : string) (o : Outcome) : list Write :=
  filter (fun w => Context (status w) = c) (issued o).

(** Required-context immunity, as a property of the outcome [o] of one
    invocation: no write targets the context of a required definition. *)
Definition requiredImmune (presubmits : list Presubmit) (o : Outcome) : Prop :=
  ∀ p, p ∈ presubmits → Optional p = false → writesTo (context p) o = [].

(** The status of context [c] is failure or pending. *)
Definition failing (existing : gmap string Status) (c : string) : Prop :=
  ∃ s, existing !! c = Some s ∧ failedOrPending (State s) = true.

(** The skip rule for optional definitions, as a property of the outcome
    [o] of one invocation: the context of an optional definition is
    written if and only if it is failing and the definition's own trigger
    does not match; it is written at most once, with state success and
    description "Skipped", on the head commit. *)
Definition optionalSkipped (e : GenericCommentEvent) (presubmits : list Presubmit)
    (existing : gmap string Status) (o : Outcome) : Prop :=
  ∀ p, p ∈ presubmits → Optional p = true →
    (writesTo (context p) o ≠ [] ↔
       failing existing (context p) ∧ TriggerMatches p (Body e) = false) ∧
    (length (writesTo (context p) o) ≤ 1)%nat ∧
    (∀ w, w ∈ writesTo (context p) o → w = skipWrite e p).

(** Retrigger exclusion, as a property of the outcome [o] of one
    invocation: the failing context of an optional definition whose own
    trigger matches the body is not written and keeps its posted status. *)
Definition retriggerExcluded (e : GenericCommentEvent) (presubmits : list Presubmit)
    (existing : gmap string Status) (o : Outcome) : Prop :=
  ∀ p, p ∈ presubmits → Optional p = true →
    failing existing (context p) → TriggerMatches p (Body e) = true →
    writesTo (context p) o = [] ∧ posted o !! context p = existing !! context p.

End Resolver.

(** ** Sample collaborators and inputs *)

Module Sample.

Definition skipCommand (body : string) : bool := String.prefix "/skip" body.

(** A host that accepts every write. *)
Definition host : list Write → Write → option error := fun _ _ => None.

(** No definition has its trigger matched. *)
Definition noTrigger : Presubmit → string → bool := fun _ _ => false.

(** A definition is retriggered when its rerun command ends the body. *)
Definition rerun : Presubmit → string → bool :=
  fun p body => negb (String.eqb (RerunCommand p) "") &&
                String.eqb body
                  ("/skip" ++ String (Ascii.ascii_of_nat 10) (RerunCommand p)).

Definition comment (body : string) : GenericCommentEvent :=
  {| IsPR := true; IssueState := "open"; Action := GenericCommentActionCreated;
     Body := body; IssueNumber := 1;
     Repo_ := {| Owner := "org"; RepoName := "repo" |};
     HeadSHA := "shalala" |}.

Definition definition (optional : bool) (rerunCommand ctx : string) : Presubmit :=
  {| Optional := optional; Trigger := ""; RerunCommand := rerunCommand;
     Reporter_ := {| ReporterContext := ctx |} |}.

Definition statusOf (s : StatusState) (ctx : string) : Status :=
  {| State := s; Description := ""; Context := ctx |}.

Definition failed : gmap string Status :=
  {[ "failed-tests" := statusOf StatusFailure "failed-tests" ]}.

(** A required and an optional definition that report one context. *)
Definition mixed : list Presubmit :=
  [definition false "" "failed-tests"; definition true "" "failed-tests"].

(** Two optional definitions that report one context. *)
Definition doubled : list Presubmit :=
  [definition true "/test job" "failed-tests"; definition true "" "failed-tests"].

(** The inputs of [TestSkipStatus]: three required contexts; two optional
    ones, failed and pending; one optional failed context with a rerun
    command. *)
Definition required : list Presubmit :=
  [definition false "" "passing-tests"; definition false "" "failed-tests";
   definition false "" "pending-tests"].

Definition optional : list Presubmit :=
  [definition true "" "failed-tests"; definition true "" "pending-tests"].

Definition retriggered : list Presubmit :=
  [definition true "/test job" "failed-tests"].

Definition existing : gmap string Status :=
  {[ "passing-tests" := statusOf StatusSuccess "passing-tests";
     "failed-tests" := statusOf StatusFailure "failed-tests";
     "pending-tests" := statusOf StatusPending "pending-tests" ]}.

Definition skipAndRetest : string :=
  "/skip" ++ String (Ascii.ascii_of_nat 10) "/test job".

End Sample.

End Skip.

(** ** The selection of one iteration *)

Lemma eligible_guard pj :
  Complete pj || negb (isPresubmit (Type_ (Spec pj))) = negb (eligible pj).
Proof. unfold eligible. by destruct (Complete pj), (isPresubmit _). Qed.

Lemma select_cases l d i pj :
  match select l d i pj return Prop with
  | Skip d' =>
      (eligible pj = false ∧ d' = d) ∨
      (eligible pj = true ∧ ∃ k, key pj = Some k ∧ d !! k = None ∧ d' = <[k := i]> d)
  | Cancel c d' =>
      eligible pj = true ∧
      ∃ k prev pp, key pj = Some k ∧ d !! k = Some prev ∧ l !! prev = Some pp ∧
        ((StartTime (Status pp) < StartTime (Status pj) ∧ c = prev ∧ d' = <[k := i]> d) ∨
         (StartTime (Status pj) ≤ StartTime (Status pp) ∧ c = i ∧ d' = d))
  | Panics =>
      eligible pj = true ∧
      (key pj = None ∨ ∃ k prev, key pj = Some k ∧ d !! k = Some prev ∧ l !! prev = None)
  end.
Proof.
  unfold select, key, firstPull. rewrite eligible_guard.
  destruct (eligible pj); simpl; [|by left].
  destruct (Refs_ (Spec pj)) as [refs|]; [|by split; [|left]].
  destruct (Pulls refs) as [|p ps]; [by split; [|left]|].
  destruct (d !! identifier pj refs p) as [prev|] eqn:Hd.
  - destruct (l !! prev) as [pp|] eqn:Hp.
    + unfold Before.
      destruct (Z.ltb_spec (StartTime (Status pp)) (StartTime (Status pj)));
        (split; [done|]); exists (identifier pj refs p), prev, pp;
        (split; [done|]); (split; [done|]); (split; [done|]);
        [by left|by right].
    + split; [done|]. right. eauto.
  - right. split; [done|]. eauto.
Qed.

Lemma member_inj l k k' j : member l k j → member l k' j → k = k'.
Proof. intros (pj & H1 & _ & H2) (pj' & H1' & _ & H2'). congruence. Qed.

Lemma member_lookup l k j pj :
  l !! j = Some pj → member l k j ↔ eligible pj = true ∧ key pj = Some k.
Proof.
  intros Hl. split.
  - intros (pj' & H1 & H2 & H3). by simplify_eq.
  - intros [? ?]. by exists pj.
Qed.

Lemma start_lookup l j pj : l !! j = Some pj → start l j = StartTime (Status pj).
Proof. unfold start. by intros ->. Qed.

Ltac split_inv := split; [|split; [|split; [|split]]].

Lemma Inv_step l i d acc pj :
  Inv l i d acc → l !! i = Some pj →
  match select l d i pj with
  | Skip d' => Inv l (S i) d' acc
  | Cancel c d' => Inv l (S i) d' (acc ++ [c]) ∧ (c ≤ i)%nat
  | Panics => eligible pj = true ∧ key pj = None
  end.
Proof.
  intros (Hwf & Hbest & Hcs & Hnd & Hsome) Hi.
  assert (Hmi : ∀ k, member l k i ↔ eligible pj = true ∧ key pj = Some k)
    by (intros; by apply member_lookup).
  assert (Hlt : ∀ j, (j < S i)%nat → j = i ∨ (j < i)%nat) by lia.
  assert (Hacc : ∀ x, x ∈ acc → (x < i)%nat) by (intros x Hx; by destruct (Hcs x Hx)).
  pose proof (select_cases l d i pj) as Hsel.
  destruct (select l d i pj) as [d'|c d'|].
  - destruct Hsel as [[Hne ->]|(He & k & Hk & Hd & ->)].
    + (* not a candidate *)
      split_inv.
      * intros k j Hkj. destruct (Hwf k j Hkj). split; [lia|done].
      * intros k r Hr. split; [by destruct (Hbest k r Hr)|].
        intros j Hj Hm. destruct (Hlt j Hj) as [->|Hj'].
        -- apply Hmi in Hm. destruct Hm; congruence.
        -- by eapply (proj2 (Hbest k r Hr)).
      * intros c Hc. destruct (Hcs c Hc) as [? ?]. split; [lia|done].
      * done.
      * intros j k Hj Hm. destruct (Hlt j Hj) as [->|Hj'].
        -- apply Hmi in Hm. destruct Hm; congruence.
        -- by eapply Hsome.
    + (* first sight of the key *)
      assert (Hfresh : ∀ j, (j < i)%nat → ¬ member l k j).
      { intros j Hj Hm. destruct (Hsome j k Hj Hm) as [? ?]. congruence. }
      split_inv.
      * intros k' j Hkj. destruct (decide (k = k')) as [<-|Hne].
        -- rewrite lookup_insert_eq in Hkj. simplify_eq. split; [lia|]. by apply Hmi.
        -- rewrite lookup_insert_ne in Hkj by done.
           destruct (Hwf k' j Hkj). split; [lia|done].
      * intros k' r Hr. destruct (decide (k = k')) as [<-|Hne].
        -- rewrite lookup_insert_eq in Hr. simplify_eq. split.
           ++ intros Hin. apply Hacc in Hin. lia.
           ++ intros j Hj Hm.
              destruct (Hlt j Hj) as [->|Hj']; [|by destruct (Hfresh j)].
              split; [lia|]. split; [lia|done].
        -- rewrite lookup_insert_ne in Hr by done. split; [by destruct (Hbest k' r Hr)|].
           intros j Hj Hm. destruct (Hlt j Hj) as [->|Hj'].
           ++ apply Hmi in Hm. destruct Hm; congruence.
           ++ by eapply (proj2 (Hbest k' r Hr)).
      * intros c Hc. destruct (Hcs c Hc) as [? ?]. split; [lia|done].
      * done.
      * intros j k' Hj Hm. destruct (decide (k = k')) as [<-|Hne].
        -- rewrite lookup_insert_eq. eauto.
        -- rewrite lookup_insert_ne by done.
           destruct (Hlt j Hj) as [->|Hj'].
           ++ apply Hmi in Hm. destruct Hm; congruence.
           ++ by eapply Hsome.
  - destruct Hsel as (He & k & prev & pp & Hk & Hd & Hp & Hcase).
    destruct (Hwf k prev Hd) as [Hprev Hmprev].
    destruct (Hbest k prev Hd) as [Hnin Hb].
    assert (Hsp : start l prev = StartTime (Status pp)) by by apply start_lookup.
    assert (Hsi : start l i = StartTime (Status pj)) by by apply start_lookup.
    assert (Hmii : member l k i) by by apply Hmi.
    destruct Hcase as [(Hlt' & -> & ->)|(Hge & -> & ->)].
    + (* the retained job started earlier: it is cancelled *)
      split; [|lia]. split_inv.
      * intros k' j Hkj. destruct (decide (k = k')) as [<-|Hne].
        -- rewrite lookup_insert_eq in Hkj. simplify_eq. split; [lia|done].
        -- rewrite lookup_insert_ne in Hkj by done.
           destruct (Hwf k' j Hkj). split; [lia|done].
      * intros k' r Hr. destruct (decide (k = k')) as [<-|Hne].
        -- rewrite lookup_insert_eq in Hr. simplify_eq. split.
           ++ rewrite elem_of_app, list_elem_of_singleton.
              intros [Hin| ->]; [apply Hacc in Hin|]; lia.
           ++ intros j Hj Hm.
              destruct (Hlt j Hj) as [->|Hj']; [split; [lia|]; split; [lia|done]|].
              destruct (Hb j Hj' Hm) as (Hle & _ & Hin).
              split; [lia|]. split; [lia|].
              intros _. rewrite elem_of_app, list_elem_of_singleton.
              destruct (decide (j = prev)); [by right|left; by apply Hin].
        -- rewrite lookup_insert_ne in Hr by done. split.
           ++ rewrite elem_of_app, list_elem_of_singleton.
              intros [Hin| ->]; [by destruct (Hbest k' r Hr)|].
              destruct (Hwf k' prev Hr) as [_ Hm']. destruct Hne. exact (member_inj l k k' prev Hmprev Hm').
           ++ intros j Hj Hm. destruct (Hlt j Hj) as [->|Hj'].
              ** destruct Hne. exact (member_inj l k k' i Hmii Hm).
              ** destruct (proj2 (Hbest k' r Hr) j Hj' Hm) as (? & ? & Hin).
                 split; [done|]. split; [done|]. intros Hjr.
                 rewrite elem_of_app. left. by apply Hin.
      * intros c Hc. apply elem_of_app in Hc as [Hin|Hin%list_elem_of_singleton].
        -- split; [apply Hacc in Hin; lia|by apply Hcs].
        -- subst. split; [lia|eauto].
      * apply NoDup_app. split; [done|]. split; [|apply NoDup_singleton].
        intros x Hx ->%list_elem_of_singleton. done.
      * intros j k' Hj Hm. destruct (decide (k = k')) as [<-|Hne].
        -- rewrite lookup_insert_eq. eauto.
        -- rewrite lookup_insert_ne by done.
           destruct (Hlt j Hj) as [->|Hj'].
           ++ destruct Hne. exact (member_inj l k k' i Hmii Hm).
           ++ by eapply Hsome.
    + (* the new job does not start later: it is cancelled *)
      split; [|lia]. split_inv.
      * intros k' j Hkj. destruct (Hwf k' j Hkj). split; [lia|done].
      * intros k' r Hr. split.
        -- rewrite elem_of_app, list_elem_of_singleton.
           intros [Hin| ->]; [by destruct (Hbest k' r Hr)|].
           destruct (Hwf k' i Hr). lia.
        -- intros j Hj Hm.
           destruct (Hlt j Hj) as [->|Hj'].
           ++ assert (k' = k) as -> by exact (member_inj l k' k i Hm Hmii).
              assert (r = prev) as -> by congruence.
              split; [lia|]. split; [lia|].
              intros _. rewrite elem_of_app, list_elem_of_singleton. by right.
           ++ destruct (proj2 (Hbest k' r Hr) j Hj' Hm) as (? & ? & Hin).
              split; [done|]. split; [done|]. intros Hjr.
              rewrite elem_of_app. left. by apply Hin.
      * intros c Hc. apply elem_of_app in Hc as [Hin|Hin%list_elem_of_singleton].
        -- split; [apply Hacc in Hin; lia|by apply Hcs].
        -- subst. split; [lia|eauto].
      * apply NoDup_app. split; [done|]. split; [|apply NoDup_singleton].
        intros x Hx ->%list_elem_of_singleton. apply Hacc in Hx. lia.
      * intros j k' Hj Hm.
        destruct (Hlt j Hj) as [->|Hj'].
        -- assert (k' = k) as -> by exact (member_inj l k' k i Hm Hmii). eauto.
        -- by eapply Hsome.
  - destruct Hsel as [He [Hk|(k & prev & Hk & Hd & Hp)]]; [done|].
    destruct (Hwf k prev Hd) as [_ (pp & Hpp & _)]. congruence.
Qed.

Lemma member_insert_ne l c x k j :
  j ≠ c → member (<[c := x]> l) k j ↔ member l k j.
Proof. intros Hne. unfold member. by rewrite list_lookup_insert_ne. Qed.

(** What the selection does to [dupes], and which slot it picks. *)
Lemma WF_step l d i pj :
  WF l d i → l !! i = Some pj →
  match select l d i pj with
  | Skip d' =>
      WF l d' (S i) ∧
      (∀ k j, d' !! k = Some j → d !! k = Some j ∨ (j = i ∧ member l k i))
  | Cancel c d' =>
      WF l d' (S i) ∧ (c ≤ i)%nat ∧
      (∀ k j, d' !! k = Some j → j ≠ c) ∧
      (∀ k j, d' !! k = Some j → d !! k = Some j ∨ (j = i ∧ member l k i))
  | Panics => True
  end.
Proof.
  intros Hwf Hi.
  assert (Hup : ∀ d', (∀ k j, d' !! k = Some j →
                         d !! k = Some j ∨ (j = i ∧ member l k i)) →
                      WF l d' (S i)).
  { intros d' H k j Hkj. destruct (H k j Hkj) as [Hd|[-> Hm]].
    - destruct (Hwf k j Hd). split; [lia|done].
    - split; [lia|done]. }
  assert (Hins : ∀ k, eligible pj = true → key pj = Some k →
                 ∀ k' j, <[k := i]> d !! k' = Some j →
                         d !! k' = Some j ∨ (j = i ∧ member l k' i)).
  { intros k He Hk k' j Hkj. destruct (decide (k = k')) as [<-|Hne].
    - rewrite lookup_insert_eq in Hkj. assert (j = i) as -> by congruence.
      right. split; [done|]. by apply (member_lookup l k i pj).
    - rewrite lookup_insert_ne in Hkj by done. by left. }
  pose proof (select_cases l d i pj) as Hsel.
  destruct (select l d i pj) as [d'|c d'|]; [| |done].
  - destruct Hsel as [[Hne ->]|(He & k & Hk & Hd & ->)].
    + split; [apply Hup|]; eauto.
    + split; [apply Hup|]; eauto.
  - destruct Hsel as (He & k & prev & pp & Hk & Hd & Hp & Hcase).
    destruct (Hwf k prev Hd) as [Hprev Hmprev].
    destruct Hcase as [(Hlt' & -> & ->)|(Hge & -> & ->)].
    + split; [apply Hup; eauto|]. split; [lia|]. split; [|eauto].
      intros k' j Hkj Hj. subst j. destruct (decide (k = k')) as [<-|Hne].
      * rewrite lookup_insert_eq in Hkj. assert (prev = i) by congruence. lia.
      * rewrite lookup_insert_ne in Hkj by done.
        destruct (Hwf k' prev Hkj) as [_ Hm'].
        destruct Hne. exact (member_inj l k k' prev Hmprev Hm').
    + split; [apply Hup; eauto|]. split; [lia|]. split; [|eauto].
      intros k' j Hkj Hj. subst j. destruct (Hwf k' i Hkj). lia.
Qed.

(** The scan reads only the slots still to visit and the retained ones. *)
Lemma scan_ext l l' : ∀ m i d,
  (∀ j, (i ≤ j)%nat → l !! j = l' !! j) →
  (∀ k j, d !! k = Some j → l !! j = l' !! j) →
  scan l (seq i m) d = scan l' (seq i m) d.
Proof.
  induction m as [|m IH]; intros i d Hge Hd; [done|].
  simpl. rewrite <- (Hge i) by lia.
  destruct (l !! i) as [pj|] eqn:Hi; [|done].
  assert (Hsel : select l d i pj = select l' d i pj).
  { unfold select. destruct (_ || _); [done|].
    destruct (Refs_ _) as [refs|]; [|done].
    destruct (Pulls _) as [|p ps]; [done|].
    destruct (d !! identifier pj refs p) as [prev|] eqn:Hp; [|done].
    by rewrite (Hd _ _ Hp). }
  rewrite <- Hsel.
  assert (Hd' : ∀ d' : gmap jobIndentifier nat,
                 (∀ k j, d' !! k = Some j → d !! k = Some j ∨ j = i) →
                 ∀ k j, d' !! k = Some j → l !! j = l' !! j).
  { intros d' H k j Hkj. destruct (H k j Hkj) as [?| ->]; [by eapply Hd|].
    apply Hge. lia. }
  assert (Hins : ∀ k k' j, <[k := i]> d !! k' = Some j → d !! k' = Some j ∨ j = i).
  { intros k k' j Hkj. destruct (decide (k = k')) as [<-|Hne].
    - rewrite lookup_insert_eq in Hkj. simplify_eq. by right.
    - rewrite lookup_insert_ne in Hkj by done. by left. }
  pose proof (select_cases l d i pj) as Hc.
  destruct (select l d i pj) as [d'|c d'|]; [| |done].
  - apply IH; [intros; apply Hge; lia|].
    destruct Hc as [[_ ->]|(_ & k & _ & _ & ->)]; [done|].
    apply Hd', Hins.
  - rewrite (IH (S i) d'); [done|intros; apply Hge; lia|].
    destruct Hc as (_ & k & prev & pp & _ & _ & _ & [(_ & _ & ->)|(_ & _ & ->)]);
      [apply Hd', Hins|done].
Qed.

Lemma scan_inv l : ∀ m i d acc cs e,
  (i + m ≤ length l)%nat → Inv l i d acc →
  scan l (seq i m) d = (cs, e) →
  match e with
  | ScanDone d' => Inv l (i + m) d' (acc ++ cs)
  | ScanPanic =>
      (∃ i' d', (i' < i + m)%nat ∧ Inv l i' d' (acc ++ cs)) ∧
      ∃ j pj, l !! j = Some pj ∧ eligible pj = true ∧ key pj = None
  end.
Proof.
  induction m as [|m IH]; intros i d acc cs e Hlen HI Hs.
  - simpl in Hs. simplify_eq. by rewrite Nat.add_0_r, app_nil_r.
  - simpl in Hs.
    destruct (l !! i) as [pj|] eqn:Hi;
      [|apply lookup_ge_None in Hi; lia].
    pose proof (Inv_step l i d acc pj HI Hi) as Hstep.
    destruct (select l d i pj) as [d'|c d'|].
    + replace (i + S m)%nat with (S i + m)%nat by lia.
      apply (IH (S i) d'); [lia|done|done].
    + destruct (scan l (seq (S i) m) d') as [cs' e'] eqn:Hs'. simplify_eq.
      replace (i + S m)%nat with (S i + m)%nat by lia.
      replace (acc ++ c :: cs') with ((acc ++ [c]) ++ cs')
        by by rewrite <- app_assoc.
      apply (IH (S i) d'); [lia|by destruct Hstep|done].
    + simplify_eq. rewrite app_nil_r. split.
      * exists i, d. split; [lia|done].
      * exists i, pj. by destruct Hstep.
Qed.

(** ** The effects of one cancellation *)

Section CancelFacts.

Variable cleanup : list Event → ProwJob → option error.
Variable ReplaceProwJob : list Event → string → ProwJob → ProwJob + error.

Local Abbreviation cancel := (cancel cleanup ReplaceProwJob).
Local Abbreviation cancelAll := (cancelAll cleanup ReplaceProwJob).
Local Abbreviation body := (body cleanup ReplaceProwJob).
Local Abbreviation loop := (loop cleanup ReplaceProwJob).

Lemma cancel_cases c st :
  match pjs st !! c with
  | None => cancel c st = (st, Stop Panicked)
  | Some r =>
    match ReplaceProwJob (trace st ++ [EvCleanup r])
            (Name (ObjectMeta_ (aborted r))) (aborted r) with
    | inl npj =>
        ∃ lg, cancel c st =
          ({| pjs := <[c := npj]> (pjs st); dupes := dupes st;
              trace := trace st ++ calls r; log := lg |}, Next)
    | inr e =>
        ∃ lg, cancel c st =
          ({| pjs := pjs st; dupes := dupes st;
              trace := trace st ++ calls r; log := lg |},
           Stop (Returned (Some e)))
    end
  end.
Proof.
  unfold cancel. destruct (pjs st !! c) as [r|]; [|done].
  fold (aborted r). unfold calls.
  destruct (ReplaceProwJob _ _ _) as [npj|e];
    rewrite <- app_assoc; simpl; eauto.
Qed.

Lemma cancel_setDupes c d st :
  cancel c (setDupes d st) =
  let '(st', ctl) := cancel c st in (setDupes d st', ctl).
Proof.
  unfold cancel. simpl. destruct (pjs st !! c) as [r|]; [|done].
  by destruct (ReplaceProwJob _ _ _).
Qed.

Lemma cancelAll_setDupes cs : ∀ d st,
  cancelAll cs (setDupes d st) =
  let '(st', ctl) := cancelAll cs st in (setDupes d st', ctl).
Proof.
  induction cs as [|c cs IH]; intros d st; [done|].
  simpl. rewrite cancel_setDupes.
  destruct (cancel c st) as [st1 [|r]]; [apply IH|done].
Qed.

(** The loop makes the selections of the scan and carries out their
    effects one after the other. *)
Lemma loop_scan : ∀ m i st cs e st' r stc ctl,
  (i + m ≤ length (pjs st))%nat →
  WF (pjs st) (dupes st) i →
  scan (pjs st) (seq i m) (dupes st) = (cs, e) →
  loop (seq i m) st = (st', r) →
  cancelAll cs st = (stc, ctl) →
  obs st' = obs stc ∧
  r = match ctl with Stop r' => r' | Next => endResult e end ∧
  (∀ k j, dupes st' !! k = Some j →
     dupes st !! k = Some j ∨ ((i ≤ j)%nat ∧ member (pjs st) k j)) ∧
  (∀ d', e = ScanDone d' → ctl = Next → dupes st' = d').
Proof.
  induction m as [|m IH]; intros i st cs e st' r stc ctl Hlen Hwf Hs Hl Hc.
  - simpl in *. simplify_eq. simpl in Hc. simplify_eq.
    split; [done|]. split; [done|]. split; [eauto|]. intros d' ? _. by simplify_eq.
  - simpl in Hs, Hl. unfold body in Hl.
    destruct (pjs st !! i) as [pj|] eqn:Hi;
      [|apply lookup_ge_None in Hi; lia].
    pose proof (WF_step _ _ _ _ Hwf Hi) as Hstep.
    destruct (select (pjs st) (dupes st) i pj) as [d'|c d'|].
    + (* no cancellation at this slot *)
      destruct Hstep as [Hwf' Hent].
      pose proof (cancelAll_setDupes cs d' st) as Hd. rewrite Hc in Hd.
      destruct (IH (S i) (setDupes d' st) cs e st' r (setDupes d' stc) ctl)
        as (Ho & Hr & Hdup & Hfin); [simpl; lia|done|done|done|done|].
      split; [done|]. split; [done|]. split; [|done].
      intros k j Hkj. destruct (Hdup k j Hkj) as [Hin|[? ?]].
      * destruct (Hent k j Hin) as [?|[-> ?]]; [by left|right; split; [lia|done]].
      * right. split; [lia|done].
    + (* slot [c] is cancelled *)
      destruct Hstep as (Hwf' & Hci & Hnc & Hent).
      destruct (scan (pjs st) (seq (S i) m) d') as [cs' e'] eqn:Hs'.
      simplify_eq. simpl in Hc.
      rewrite cancel_setDupes in Hl.
      pose proof (cancel_cases c st) as Hcc.
      destruct (pjs st !! c) as [rc|] eqn:Hrc;
        [|apply lookup_ge_None in Hrc; lia].
      destruct (ReplaceProwJob _ _ _) as [npj|err].
      * destruct Hcc as [lg Hcc]. rewrite Hcc in Hl, Hc.
        set (st1 := {| pjs := <[c := npj]> (pjs st); dupes := dupes st;
                       trace := trace st ++ calls rc; log := lg |}) in *.
        pose proof (cancelAll_setDupes cs' d' st1) as Hd. rewrite Hc in Hd.
        assert (Hwf1 : WF (pjs (setDupes d' st1)) (dupes (setDupes d' st1)) (S i)).
        { intros k j Hkj. simpl in *. destruct (Hwf' k j Hkj) as [? ?].
          split; [done|]. apply member_insert_ne; [by eapply Hnc|done]. }
        assert (Hs1 : scan (pjs (setDupes d' st1)) (seq (S i) m)
                        (dupes (setDupes d' st1)) = (cs', e)).
        { simpl. rewrite <- Hs'. apply scan_ext.
          - intros j Hj. apply list_lookup_insert_ne. lia.
          - intros k j Hkj. apply list_lookup_insert_ne.
            intros ->. by eapply Hnc. }
        destruct (IH (S i) (setDupes d' st1) cs' e st' r (setDupes d' stc) ctl)
          as (Ho & Hr & Hdup & Hfin);
          [simpl; rewrite length_insert; lia|done|done|done|done|].
        split; [done|]. split; [done|]. split; [|done].
        intros k j Hkj. destruct (Hdup k j Hkj) as [Hin|[Hj Hm]].
        -- destruct (Hent k j Hin) as [?|[-> ?]]; [by left|right; split; [lia|done]].
        -- right. split; [lia|]. simpl in Hm.
           apply member_insert_ne in Hm; [done|lia].
      * destruct Hcc as [lg Hcc]. rewrite Hcc in Hl, Hc. simplify_eq.
        split; [done|]. split; [done|]. split; [|done].
        intros k j Hkj. simpl in Hkj.
        destruct (Hent k j Hkj) as [?|[-> ?]]; [by left|right; split; [lia|done]].
    + (* the first pull-request ref is missing *)
      simplify_eq. simpl in Hc. simplify_eq.
      split; [done|]. split; [done|]. split; [eauto|done].
Qed.

End CancelFacts.

Lemma history_cons l c cs r :
  l !! c = Some r → history l (c :: cs) = calls r ++ history l cs.
Proof. unfold history. simpl. by intros ->. Qed.

Lemma history_app l cs cs' : history l (cs ++ cs') = history l cs ++ history l cs'.
Proof. unfold history. by rewrite flat_map_app. Qed.

Lemma history_insert l c x cs :
  c ∉ cs → history (<[c := x]> l) cs = history l cs.
Proof.
  induction cs as [|c' cs IH]; intros Hc; [done|].
  apply not_elem_of_cons in Hc as [Hne Hc].
  unfold history in *. simpl. rewrite IH by done.
  by rewrite list_lookup_insert_ne.
Qed.

Section ReplayFacts.

Variable cleanup : list Event → ProwJob → option error.
Variable ReplaceProwJob : list Event → string → ProwJob → ProwJob + error.

Local Abbreviation cancel := (cancel cleanup ReplaceProwJob).
Local Abbreviation cancelAll := (cancelAll cleanup ReplaceProwJob).
Local Abbreviation replaced := (replaced ReplaceProwJob).

Lemma replaced_nil tr l : replaced tr l [] l.
Proof. split; [done|]. split; [done|]. intros m c Hm. done. Qed.

Lemma replaced_cons tr l c rc npj ok l' :
  l !! c = Some rc →
  ReplaceProwJob (tr ++ [EvCleanup rc])
    (Name (ObjectMeta_ (aborted rc))) (aborted rc) = inl npj →
  c ∉ ok →
  replaced (tr ++ calls rc) (<[c := npj]> l) ok l' →
  replaced tr l (c :: ok) l'.
Proof.
  intros Hc Hrep Hnin (Hlen & Hsame & Hrepl).
  assert (Hcl : (c < length l)%nat) by by eapply lookup_lt_Some.
  split; [by rewrite Hlen, length_insert|]. split.
  - intros j Hj. apply not_elem_of_cons in Hj as [Hne Hj].
    rewrite (Hsame j Hj). by apply list_lookup_insert_ne.
  - intros [|m] c' Hm; simpl in Hm.
    + simplify_eq. exists rc, npj. split; [done|]. split; [done|].
      rewrite (Hsame c' Hnin). by apply list_lookup_insert_eq.
    + assert (Hc' : c' ∈ ok) by by eapply list_elem_of_lookup_2.
      assert (c' ≠ c) by (intros ->; done).
      destruct (Hrepl m c' Hm) as (r & npj' & Hr & Hrp & Hl').
      rewrite list_lookup_insert_ne in Hr by done.
      exists r, npj'. split; [done|]. split; [|done].
      rewrite history_insert in Hrp.
      * change (take (S m) (c :: ok)) with (c :: take m ok).
        rewrite (history_cons l c _ rc) by done.
        by rewrite <- !app_assoc in *.
      * intros Hin. apply Hnin. by eapply subseteq_take.
Qed.

(** Carrying out the selections [cs]: either all replace calls succeed,
    or the first failure ends the run where it stands. *)
Lemma cancelAll_spec : ∀ cs st st' ctl,
  NoDup cs → (∀ c, c ∈ cs → (c < length (pjs st))%nat) →
  cancelAll cs st = (st', ctl) →
  match ctl with
  | Next =>
      replaced (trace st) (pjs st) cs (pjs st') ∧
      trace st' = trace st ++ history (pjs st) cs
  | Stop r =>
      ∃ ok c rest rc e,
        cs = ok ++ c :: rest ∧ r = Returned (Some e) ∧
        pjs st !! c = Some rc ∧
        ReplaceProwJob (trace st ++ history (pjs st) ok ++ [EvCleanup rc])
          (Name (ObjectMeta_ (aborted rc))) (aborted rc) = inr e ∧
        replaced (trace st) (pjs st) ok (pjs st') ∧
        trace st' = trace st ++ history (pjs st) (ok ++ [c])
  end.
Proof.
  induction cs as [|c cs IH]; intros st st' ctl Hnd Hrange Hc.
  - simpl in Hc. simplify_eq. split; [apply replaced_nil|].
    by rewrite app_nil_r.
  - simpl in Hc. apply NoDup_cons in Hnd as [Hnin Hnd].
    pose proof (cancel_cases cleanup ReplaceProwJob c st) as Hcc.
    destruct (pjs st !! c) as [rc|] eqn:Hrc.
    2:{ apply lookup_ge_None in Hrc.
        specialize (Hrange c (list_elem_of_here _ _)). lia. }
    destruct (ReplaceProwJob _ _ _) as [npj|err] eqn:Hrep.
    + destruct Hcc as [lg Hcc]. rewrite Hcc in Hc.
      set (st1 := {| pjs := <[c := npj]> (pjs st); dupes := dupes st;
                     trace := trace st ++ calls rc; log := lg |}) in *.
      assert (Hrange1 : ∀ c', c' ∈ cs → (c' < length (pjs st1))%nat).
      { intros c' Hc'. simpl. rewrite length_insert.
        apply Hrange. by right. }
      specialize (IH st1 st' ctl Hnd Hrange1 Hc). simpl in IH.
      destruct ctl as [|r].
      * destruct IH as [Hrepl Htr]. split.
        -- by eapply replaced_cons.
        -- rewrite Htr, history_insert by done.
           rewrite (history_cons _ c cs rc) by done.
           by rewrite <- app_assoc.
      * destruct IH as (ok & c' & rest & rc' & e & -> & -> & Hrc' & Hfail & Hrepl & Htr).
        assert (Hcok : c ∉ ok) by (intros Hin; apply Hnin; set_solver).
        assert (Hcc' : c ≠ c') by (intros ->; apply Hnin; set_solver).
        exists (c :: ok), c', rest, rc', e.
        split; [done|]. split; [done|].
        rewrite list_lookup_insert_ne in Hrc' by done.
        split; [done|]. split; [|split].
        -- rewrite history_insert in Hfail by done.
           rewrite (history_cons _ c ok rc) by done.
           by rewrite <- !app_assoc in *.
        -- by eapply replaced_cons.
        -- rewrite Htr, history_insert.
           ++ rewrite <- app_comm_cons, (history_cons _ c _ rc) by done.
              by rewrite <- app_assoc.
           ++ rewrite elem_of_app, list_elem_of_singleton.
              intros [Hin| ->]; [by apply Hcok|by apply Hcc'].
    + destruct Hcc as [lg Hcc]. rewrite Hcc in Hc. simplify_eq.
      exists [], c, cs, rc, err.
      split; [done|]. split; [done|]. split; [done|]. split; [exact Hrep|].
      split; [apply replaced_nil|].
      by rewrite app_nil_l, (history_cons _ c [] rc), app_nil_r.
Qed.

End ReplayFacts.

(** ** The run as a whole *)

Lemma member_lt l k j : member l k j → (j < length l)%nat.
Proof. intros (pj & Hl & _). by eapply lookup_lt_Some. Qed.

Lemma Inv_init l : Inv l 0 ∅ [].
Proof.
  split_inv.
  - intros k j Hkj. by rewrite lookup_empty in Hkj.
  - intros k r Hr. by rewrite lookup_empty in Hr.
  - intros c Hc. by apply not_elem_of_nil in Hc.
  - apply NoDup_nil_2.
  - intros j k Hj. lia.
Qed.

Section RunFacts.

Variable cleanup : list Event → ProwJob → option error.
Variable ReplaceProwJob : list Event → string → ProwJob → ProwJob + error.

Local Abbreviation cancelAll := (cancelAll cleanup ReplaceProwJob).
Local Abbreviation body := (body cleanup ReplaceProwJob).
Local Abbreviation loop := (loop cleanup ReplaceProwJob).
Local Abbreviation replaced := (replaced ReplaceProwJob).
Local Abbreviation run := (TerminateOlderPresubmitJobs cleanup ReplaceProwJob).

(** The state after the first [m] slots, in terms of the selections made
    there. *)
Lemma loop_outcome l m st r :
  (m ≤ length l)%nat → loop (seq 0 m) (entry l) = (st, r) →
  ∃ cs e, scan l (seq 0 m) ∅ = (cs, e) ∧
    NoDup cs ∧ (∀ c, c ∈ cs → (c < m)%nat ∧ ∃ k, member l k c) ∧
    (∀ k j, dupes st !! k = Some j → member l k j) ∧
    match r with
    | Returned None =>
        ∃ d, e = ScanDone d ∧ dupes st = d ∧ Inv l m d cs ∧
          replaced [] l cs (pjs st) ∧ trace st = history l cs
    | Returned (Some err) =>
        ∃ ok c rest rc,
          cs = ok ++ c :: rest ∧ l !! c = Some rc ∧
          ReplaceProwJob (history l ok ++ [EvCleanup rc])
            (Name (ObjectMeta_ (aborted rc))) (aborted rc) = inr err ∧
          replaced [] l ok (pjs st) ∧ trace st = history l (ok ++ [c])
    | Panicked =>
        e = ScanPanic ∧
        (∃ j pj, l !! j = Some pj ∧ eligible pj = true ∧ key pj = None) ∧
        replaced [] l cs (pjs st) ∧ trace st = history l cs
    end.
Proof.
  intros Hm Hl.
  destruct (scan l (seq 0 m) ∅) as [cs e] eqn:Hs.
  destruct (cancelAll cs (entry l)) as [stc ctl] eqn:Hc.
  pose proof (scan_inv l m 0 ∅ [] cs e Hm (Inv_init l) Hs) as Hinv.
  simpl in Hinv.
  assert (Hcs : NoDup cs ∧ ∀ c, c ∈ cs → (c < m)%nat ∧ ∃ k, member l k c).
  { destruct e as [d|].
    - destruct Hinv as (_ & _ & Hc' & ? & _). done.
    - destruct Hinv as [(i' & d' & Hi' & _ & _ & Hc' & ? & _) _].
      split; [done|]. intros c Hin. destruct (Hc' c Hin). split; [lia|done]. }
  destruct Hcs as [Hnd Hmem].
  destruct (loop_scan cleanup ReplaceProwJob m 0 (entry l) cs e st r stc ctl)
    as (Ho & Hr & Hdup & Hfin); [done| |done|done|done|].
  { intros k j Hkj. simpl in Hkj. by rewrite lookup_empty in Hkj. }
  pose proof (cancelAll_spec cleanup ReplaceProwJob cs (entry l) stc ctl Hnd) as Hsp.
  exists cs, e. split; [done|]. split; [done|]. split; [done|].
  assert (Hp : pjs st = pjs stc ∧ trace st = trace stc).
  { unfold obs in Ho. by simplify_eq. }
  destruct Hp as [Hp Ht]. rewrite Hp, Ht. clear Ho Hp Ht.
  split.
  { intros k j Hkj. destruct (Hdup k j Hkj) as [He|[_ ?]]; [|done].
    simpl in He. by rewrite lookup_empty in He. }
  assert (Hrange : ∀ c, c ∈ cs → (c < length (pjs (entry l)))%nat).
  { intros c Hin. destruct (Hmem c Hin) as [_ [k Hk]]. by eapply member_lt. }
  specialize (Hsp Hrange Hc). simpl in Hsp.
  destruct ctl as [|r'].
  - destruct Hsp as [Hrepl Htr]. destruct e as [d|]; subst r; simpl.
    + exists d. split; [done|]. split; [by apply Hfin|done].
    + destruct Hinv as [_ Hpanic]. done.
  - destruct Hsp as (ok & c & rest & rc & err & -> & -> & Hrc & Hfail & Hrepl & Htr).
    subst r. exists ok, c, rest, rc. done.
Qed.

End RunFacts.

(** ** Where a run stops *)

Lemma history_split l : ∀ cs pre n rec post,
  (∀ c, c ∈ cs → is_Some (l !! c)) →
  history l cs = pre ++ EvReplace n rec :: post →
  ∃ m c rc, cs !! m = Some c ∧ l !! c = Some rc ∧
    pre = history l (take m cs) ++ [EvCleanup rc] ∧
    n = Name (ObjectMeta_ (aborted rc)) ∧ rec = aborted rc ∧
    post = history l (drop (S m) cs).
Proof.
  induction cs as [|c cs IH]; intros pre n rec post Hrange Heq.
  - by destruct pre.
  - destruct (Hrange c (list_elem_of_here _ _)) as [rc Hrc].
    rewrite (history_cons l c cs rc Hrc) in Heq.
    destruct pre as [|x [|y pre]]; simpl in Heq.
    + discriminate.
    + injection Heq as <- <- <- <-.
      by exists 0%nat, c, rc.
    + injection Heq as <- <- Heq.
      destruct (IH pre n rec post) as (m & c' & rc' & Hm & Hc' & -> & -> & -> & ->);
        [intros; apply Hrange; by right|done|].
      exists (S m), c', rc'. split; [done|]. split; [done|].
      change (take (S m) (c :: cs)) with (c :: take m cs).
      by rewrite (history_cons l c _ rc Hrc).
Qed.

Section StopFacts.

Variable cleanup : list Event → ProwJob → option error.
Variable ReplaceProwJob : list Event → string → ProwJob → ProwJob + error.

Local Abbreviation loop := (loop cleanup ReplaceProwJob).
Local Abbreviation body := (body cleanup ReplaceProwJob).
Local Abbreviation replaced := (replaced ReplaceProwJob).

(** A run that does not fall off the end of the slice stopped in the body
    of one iteration, the earlier ones having run to their end. *)
Lemma loop_stops : ∀ m i st st' r,
  loop (seq i m) st = (st', r) → r ≠ Returned None →
  ∃ m' st_m, (m' < m)%nat ∧
    loop (seq i m') st = (st_m, Returned None) ∧
    body (i + m') st_m = (st', Stop r).
Proof.
  induction m as [|m IH]; intros i st st' r Hl Hr.
  - simpl in Hl. by simplify_eq.
  - simpl in Hl. destruct (body i st) as [st1 [|r1]] eqn:Hb.
    + destruct (IH (S i) st1 st' r Hl Hr) as (m' & st_m & Hm' & Hl' & Hb').
      exists (S m'), st_m. split; [lia|]. split.
      * simpl. by rewrite Hb.
      * by rewrite Nat.add_succ_r.
    + simplify_eq. exists 0%nat, st. split; [lia|]. split; [done|].
      by rewrite Nat.add_0_r.
Qed.

(** Every replace call of a sequence of successful cancellations was
    answered with a record. *)
Lemma replaced_no_failure l cs l' pre n rec post err :
  replaced [] l cs l' →
  history l cs = pre ++ EvReplace n rec :: post →
  ReplaceProwJob pre n rec = inr err → False.
Proof.
  intros (_ & _ & Hrep) Heq Hfail.
  destruct (history_split l cs pre n rec post) as (m & c & rc & Hm & Hc & -> & -> & -> & _);
    [|done|].
  - intros c [m Hm]%list_elem_of_lookup_1.
    destruct (Hrep m c Hm) as (r & _ & ? & _). eauto.
  - destruct (Hrep m c Hm) as (r & npj & Hr & Hok & _). simplify_eq.
    rewrite app_nil_l in Hok. congruence.
Qed.

End StopFacts.

(** ** What the cleanup result and the prior state can influence *)

Lemma sameButState_fields r r' :
  sameButState r r' →
  ObjectMeta_ r = ObjectMeta_ r' ∧ Spec r = Spec r' ∧
  StartTime (Status r) = StartTime (Status r') ∧
  Completed (Status r) = Completed (Status r').
Proof. unfold sameButState, SetState. intros H. by injection H. Qed.

Lemma sameButState_aborted r r' : sameButState r r' → aborted r = aborted r'.
Proof.
  intros (Hm & Hs & Ht & _)%sameButState_fields.
  unfold aborted, SetState, SetComplete. simpl. by rewrite Hm, Hs, Ht.
Qed.

Lemma sameButState_select l l' d i pj pj' :
  Forall2 sameButState l l' → sameButState pj pj' →
  select l d i pj = select l' d i pj'.
Proof.
  intros Hl (Hm & Hs & Ht & Hc)%sameButState_fields.
  unfold select, Complete, identifier. rewrite Hs, Hc, Ht.
  destruct (_ || _); [done|].
  destruct (Refs_ _) as [refs|]; [|done].
  destruct (Pulls _) as [|p ps]; [done|].
  destruct (d !! _) as [prev|]; [|done].
  destruct (l !! prev) as [pp|] eqn:Hp.
  - destruct (Forall2_lookup_l _ _ _ _ _ Hl Hp) as (pp' & -> & Hpp).
    apply sameButState_fields in Hpp as (_ & _ & -> & _). done.
  - rewrite (lookup_ge_None_2 l' prev); [done|].
    rewrite <- (Forall2_length _ _ _ Hl). by apply lookup_ge_None.
Qed.

Lemma sameButState_scan l l' : ∀ idx d,
  Forall2 sameButState l l' → scan l idx d = scan l' idx d.
Proof.
  induction idx as [|i idx IH]; intros d Hl; [done|].
  simpl. destruct (l !! i) as [pj|] eqn:Hi.
  - destruct (Forall2_lookup_l _ _ _ _ _ Hl Hi) as (pj' & -> & Hpj).
    rewrite <- (sameButState_select l l' d i pj pj' Hl Hpj).
    destruct (select l d i pj) as [d'|c d'|]; [by apply IH| |done].
    by rewrite IH.
  - rewrite (lookup_ge_None_2 l' i); [done|].
    rewrite <- (Forall2_length _ _ _ Hl). by apply lookup_ge_None.
Qed.

Lemma eventButState_replaceCalls tr tr' :
  Forall2 eventButState tr tr' → replaceCalls tr = replaceCalls tr'.
Proof.
  induction 1 as [|ev ev' tr tr' Hev _ IH]; [done|].
  unfold replaceCalls in *. simpl. rewrite IH.
  destruct ev, ev'; simpl in Hev; try done. by destruct Hev as [-> ->].
Qed.

Section Independence.

Variable cleanup cleanup' : list Event → ProwJob → option error.
Variable ReplaceProwJob : list Event → string → ProwJob → ProwJob + error.

(** The store answers alike after histories that differ only in the prior
    states of the records handed to cleanup. *)
Hypothesis store_blind : ∀ h h' n rec,
  Forall2 eventButState h h' → ReplaceProwJob h n rec = ReplaceProwJob h' n rec.

Lemma cancel_sim c st1 st2 :
  Forall2 sameButState (pjs st1) (pjs st2) →
  Forall2 eventButState (trace st1) (trace st2) →
  ∀ s1 k1 s2 k2,
    cancel cleanup ReplaceProwJob c st1 = (s1, k1) →
    cancel cleanup' ReplaceProwJob c st2 = (s2, k2) →
    k1 = k2 ∧ Forall2 sameButState (pjs s1) (pjs s2) ∧
    Forall2 eventButState (trace s1) (trace s2).
Proof.
  intros Hp Ht s1 k1 s2 k2 H1 H2.
  pose proof (cancel_cases cleanup ReplaceProwJob c st1) as C1.
  pose proof (cancel_cases cleanup' ReplaceProwJob c st2) as C2.
  destruct (pjs st1 !! c) as [r|] eqn:Hr.
  - destruct (Forall2_lookup_l _ _ _ _ _ Hp Hr) as (r' & Hr' & Hrr).
    rewrite Hr' in C2.
    pose proof (sameButState_aborted r r' Hrr) as Hab.
    assert (Hev : Forall2 eventButState (trace st1 ++ [EvCleanup r])
                    (trace st2 ++ [EvCleanup r'])).
    { apply Forall2_app; [done|]. by constructor. }
    assert (Hcalls : Forall2 eventButState (trace st1 ++ calls r)
                       (trace st2 ++ calls r')).
    { apply Forall2_app; [done|]. unfold calls. rewrite Hab.
      constructor; [done|]. constructor; [by split|constructor]. }
    rewrite <- Hab, <- (store_blind _ _ _ _ Hev) in C2.
    destruct (ReplaceProwJob _ _ _) as [npj|e].
    + destruct C1 as [lg1 C1], C2 as [lg2 C2].
      rewrite C1 in H1. rewrite C2 in H2. simplify_eq. simpl.
      split; [done|]. split; [|done]. by apply Forall2_insert.
    + destruct C1 as [lg1 C1], C2 as [lg2 C2].
      rewrite C1 in H1. rewrite C2 in H2. by simplify_eq.
  - rewrite (lookup_ge_None_2 (pjs st2) c) in C2.
    + rewrite C1 in H1. rewrite C2 in H2. by simplify_eq.
    + rewrite <- (Forall2_length _ _ _ Hp). by apply lookup_ge_None.
Qed.

Lemma cancelAll_sim cs : ∀ st1 st2,
  Forall2 sameButState (pjs st1) (pjs st2) →
  Forall2 eventButState (trace st1) (trace st2) →
  ∀ s1 k1 s2 k2,
    cancelAll cleanup ReplaceProwJob cs st1 = (s1, k1) →
    cancelAll cleanup' ReplaceProwJob cs st2 = (s2, k2) →
    k1 = k2 ∧ Forall2 sameButState (pjs s1) (pjs s2) ∧
    Forall2 eventButState (trace s1) (trace s2).
Proof.
  induction cs as [|c cs IH]; intros st1 st2 Hp Ht s1 k1 s2 k2 H1 H2.
  - simpl in *. by simplify_eq.
  - simpl in H1, H2.
    destruct (cancel cleanup ReplaceProwJob c st1) as [t1 c1] eqn:E1.
    destruct (cancel cleanup' ReplaceProwJob c st2) as [t2 c2] eqn:E2.
    destruct (cancel_sim c st1 st2 Hp Ht _ _ _ _ E1 E2) as (<- & Hp' & Ht').
    destruct c1 as [|r1]; [by eapply IH|by simplify_eq].
Qed.

Lemma run_sim l l' st r st' r' :
  Forall2 sameButState l l' →
  TerminateOlderPresubmitJobs cleanup ReplaceProwJob l = (st, r) →
  TerminateOlderPresubmitJobs cleanup' ReplaceProwJob l' = (st', r') →
  r = r' ∧ Forall2 sameButState (pjs st) (pjs st') ∧
  Forall2 eventButState (trace st) (trace st').
Proof.
  intros Hl H1 H2. unfold TerminateOlderPresubmitJobs in *.
  pose proof (Forall2_length _ _ _ Hl) as Hlen.
  destruct (scan l (seq 0 (length l)) ∅) as [cs e] eqn:Hs.
  assert (Hs' : scan l' (seq 0 (length l')) ∅ = (cs, e)).
  { by rewrite <- Hlen, <- (sameButState_scan l l' _ _ Hl). }
  destruct (cancelAll cleanup ReplaceProwJob cs (entry l)) as [c1 k1] eqn:E1.
  destruct (cancelAll cleanup' ReplaceProwJob cs (entry l')) as [c2 k2] eqn:E2.
  assert (Hwf : ∀ x, WF x ∅ 0).
  { intros x k j Hkj. by rewrite lookup_empty in Hkj. }
  destruct (loop_scan cleanup ReplaceProwJob (length l) 0 (entry l) cs e st r c1 k1)
    as (Ho1 & Hr1 & _); [done|apply Hwf|done|done|done|].
  destruct (loop_scan cleanup' ReplaceProwJob (length l') 0 (entry l') cs e st' r' c2 k2)
    as (Ho2 & Hr2 & _); [done|apply Hwf|done|done|done|].
  destruct (cancelAll_sim cs (entry l) (entry l') Hl (Forall2_nil_2 _ _ eventButState) _ _ _ _ E1 E2)
    as (<- & Hp & Ht).
  assert (pjs st = pjs c1 ∧ trace st = trace c1) as [-> ->]
    by (unfold obs in Ho1; by simplify_eq).
  assert (pjs st' = pjs c2 ∧ trace st' = trace c2) as [-> ->]
    by (unfold obs in Ho2; by simplify_eq).
  by subst.
Qed.

End Independence.

Section CleanupIndependence.

Variable cleanup cleanup' : list Event → ProwJob → option error.
Variable ReplaceProwJob : list Event → string → ProwJob → ProwJob + error.

(** Two loop states that differ at most in their log. *)
Local Abbreviation same st1 st2 :=
  (pjs st1 = pjs st2 ∧ dupes st1 = dupes st2 ∧ trace st1 = trace st2).

Lemma cancel_cleanup c st1 st2 s1 k1 s2 k2 :
  same st1 st2 →
  cancel cleanup ReplaceProwJob c st1 = (s1, k1) →
  cancel cleanup' ReplaceProwJob c st2 = (s2, k2) →
  same s1 s2 ∧ k1 = k2.
Proof.
  intros (Hp & Hd & Ht) H1 H2.
  pose proof (cancel_cases cleanup ReplaceProwJob c st1) as C1.
  pose proof (cancel_cases cleanup' ReplaceProwJob c st2) as C2.
  rewrite <- Hp, <- Ht, <- Hd in C2.
  destruct (pjs st1 !! c) as [r|].
  - destruct (ReplaceProwJob _ _ _) as [npj|e];
      destruct C1 as [lg1 C1], C2 as [lg2 C2];
      rewrite C1 in H1; rewrite C2 in H2; by simplify_eq.
  - rewrite C1 in H1. rewrite C2 in H2. by simplify_eq.
Qed.

Lemma body_cleanup i st1 st2 s1 k1 s2 k2 :
  same st1 st2 →
  body cleanup ReplaceProwJob i st1 = (s1, k1) →
  body cleanup' ReplaceProwJob i st2 = (s2, k2) →
  same s1 s2 ∧ k1 = k2.
Proof.
  intros (Hp & Hd & Ht) H1 H2. unfold body in *.
  rewrite <- Hp, <- Hd in H2.
  destruct (pjs st1 !! i) as [pj|]; [|by simplify_eq].
  destruct (select (pjs st1) (dupes st1) i pj) as [d'|c d'|].
  - by simplify_eq.
  - by eapply (cancel_cleanup c (setDupes d' st1) (setDupes d' st2)).
  - by simplify_eq.
Qed.

Lemma loop_cleanup idx : ∀ st1 st2 s1 r1 s2 r2,
  same st1 st2 →
  loop cleanup ReplaceProwJob idx st1 = (s1, r1) →
  loop cleanup' ReplaceProwJob idx st2 = (s2, r2) →
  same s1 s2 ∧ r1 = r2.
Proof.
  induction idx as [|i idx IH]; intros st1 st2 s1 r1 s2 r2 Hs H1 H2.
  - simpl in *. by simplify_eq.
  - simpl in H1, H2.
    destruct (body cleanup ReplaceProwJob i st1) as [t1 c1] eqn:E1.
    destruct (body cleanup' ReplaceProwJob i st2) as [t2 c2] eqn:E2.
    destruct (body_cleanup i st1 st2 _ _ _ _ Hs E1 E2) as [Hs' <-].
    destruct c1 as [|r]; [by eapply IH|by simplify_eq].
Qed.

End CleanupIndependence.

(** ** The claims about the aborter *)

Section AborterClaims.

Variable cleanup : list Event → ProwJob → option error.
Variable ReplaceProwJob : list Event → string → ProwJob → ProwJob + error.

Local Abbreviation run := (TerminateOlderPresubmitJobs cleanup ReplaceProwJob).
Local Abbreviation loop := (loop cleanup ReplaceProwJob).
Local Abbreviation body := (body cleanup ReplaceProwJob).
Local Abbreviation replaced := (replaced ReplaceProwJob).

Lemma run_outcome l st r :
  run l = (st, r) →
  ∃ cs e, scan l (seq 0 (length l)) ∅ = (cs, e) ∧
    NoDup cs ∧ (∀ c, c ∈ cs → (c < length l)%nat ∧ ∃ k, member l k c) ∧
    (∀ k j, dupes st !! k = Some j → member l k j) ∧
    match r with
    | Returned None =>
        ∃ d, e = ScanDone d ∧ dupes st = d ∧ Inv l (length l) d cs ∧
          replaced [] l cs (pjs st) ∧ trace st = history l cs
    | Returned (Some err) =>
        ∃ ok c rest rc,
          cs = ok ++ c :: rest ∧ l !! c = Some rc ∧
          ReplaceProwJob (history l ok ++ [EvCleanup rc])
            (Name (ObjectMeta_ (aborted rc))) (aborted rc) = inr err ∧
          replaced [] l ok (pjs st) ∧ trace st = history l (ok ++ [c])
    | Panicked =>
        e = ScanPanic ∧
        (∃ j pj, l !! j = Some pj ∧ eligible pj = true ∧ key pj = None) ∧
        replaced [] l cs (pjs st) ∧ trace st = history l cs
    end.
Proof. intros H. by apply (loop_outcome cleanup ReplaceProwJob l (length l)). Qed.

Lemma Inv_keepsNewest l d cs :
  Inv l (length l) d cs → keepsNewest TowardEarlier l cs.
Proof.
  intros (Hwf & Hbest & _ & _ & Hsome) k j Hm.
  destruct (Hsome j k (member_lt _ _ _ Hm) Hm) as [r Hr].
  destruct (Hwf k r Hr) as [_ Hmr]. destruct (Hbest k r Hr) as [Hnin Hb].
  exists r. split; [done|]. split; [done|].
  intros j' Hm'. exact (Hb j' (member_lt _ _ _ Hm') Hm').
Qed.

(** C1 (as amended): after a successful run, among the incomplete
    presubmit jobs of each identity key exactly one slot is not cancelled;
    it holds the job of greatest start time, ties between equal start times
    going to the EARLIER position of the input; every other job of the
    group is cancelled once: one cleanup call on its record and one replace
    call on its aborted record. *)
Theorem C1_dedup_keeps_newest_earlier_on_ties l st :
  run l = (st, Returned None) → dedupOutcome TowardEarlier l st.
Proof.
  intros H. destruct (run_outcome l st _ H)
    as (cs & e & _ & Hnd & Hmem & _ & d & _ & _ & HI & Hrepl & Htr).
  exists cs. split; [done|]. split.
  { intros c Hc. by destruct (Hmem c Hc). }
  split; [by eapply Inv_keepsNewest|]. split; [done|].
  by destruct Hrepl as (_ & ? & _).
Qed.


Lemma eligible_false pj :
  Complete pj = true ∨ Type_ (Spec pj) ≠ PresubmitJob → eligible pj = false.
Proof.
  unfold eligible. intros [->|Hne]; [done|].
  destruct (Type_ (Spec pj)); [done|..]; by rewrite andb_false_r.
Qed.

(** C3: a job that is already complete, or whose kind is not presubmit, is
    never aborted (its slot is as at call start, however the run ends), is
    not among the slots on which cleanup and replace are called, and is at
    no point of the scan an entry of [dupes], whatever keys it shares with
    other jobs. *)
Theorem C3_completed_and_other_kinds_untouched l st r j pj :
  run l = (st, r) → l !! j = Some pj →
  Complete pj = true ∨ Type_ (Spec pj) ≠ PresubmitJob →
  pjs st !! j = Some pj ∧
  (∃ done, NoDup done ∧ trace st = history l done ∧
     (∀ c, c ∈ done → ∃ k, member l k c) ∧ j ∉ done) ∧
  (∀ m st_m r_m k, (m ≤ length l)%nat →
     loop (seq 0 m) (entry l) = (st_m, r_m) → dupes st_m !! k ≠ Some j).
Proof.
  intros H Hj Hne%eligible_false.
  assert (Hnm : ∀ k, ¬ member l k j).
  { intros k (pj' & ? & ? & _). simplify_eq. congruence. }
  assert (Hout : ∀ cs : list nat, (∀ c, c ∈ cs → ∃ k, member l k c) → j ∉ cs).
  { intros cs Hcs Hin. destruct (Hcs j Hin) as [k Hk]. by eapply Hnm. }
  split; [|split].
  - rewrite <- Hj.
    destruct (run_outcome l st r H) as (cs & e & _ & Hnd & Hmem & _ & Hr).
    assert (Hmem' : ∀ c, c ∈ cs → ∃ k, member l k c)
      by (intros c Hc; by destruct (Hmem c Hc)).
    destruct r as [[err|]|].
    + destruct Hr as (ok & c & rest & rc & -> & _ & _ & (_ & Hsame & _) & _).
      apply Hsame, Hout. intros x Hx. apply Hmem', elem_of_app. by left.
    + destruct Hr as (d & _ & _ & _ & (_ & Hsame & _) & _). by apply Hsame, Hout.
    + destruct Hr as (_ & _ & (_ & Hsame & _) & _). by apply Hsame, Hout.
  - destruct (run_outcome l st r H) as (cs & e & _ & Hnd & Hmem & _ & Hr).
    assert (Hmem' : ∀ c, c ∈ cs → ∃ k, member l k c)
      by (intros c Hc; by destruct (Hmem c Hc)).
    destruct r as [[err|]|].
    + destruct Hr as (ok & c & rest & rc & -> & _ & _ & _ & Htr).
      assert (Hsub : ∀ x, x ∈ ok ++ [c] → x ∈ ok ++ c :: rest).
      { intros x [?| ->%list_elem_of_singleton]%elem_of_app; apply elem_of_app;
          [by left|right; by left]. }
      exists (ok ++ [c]). split; [|split; [done|split]].
      * apply NoDup_app in Hnd as (Hok & Hdis & Hc%NoDup_cons).
        apply NoDup_app. split; [done|]. split; [|apply NoDup_singleton].
        intros x Hx ->%list_elem_of_singleton. apply (Hdis c Hx). by left.
      * intros x Hx. by apply Hmem', Hsub.
      * apply Hout. intros x Hx. by apply Hmem', Hsub.
    + destruct Hr as (d & _ & _ & _ & _ & Htr). exists cs.
      split; [done|]. split; [done|]. split; [done|]. by apply Hout.
    + destruct Hr as (_ & _ & _ & Htr). exists cs.
      split; [done|]. split; [done|]. split; [done|]. by apply Hout.
  - intros m st_m r_m k Hm Hl Hk.
    destruct (loop_outcome cleanup ReplaceProwJob l m st_m r_m Hm Hl)
      as (cs & e & _ & _ & _ & Hd & _).
    by eapply Hnm, Hd.
Qed.

(** C9: the identity key of an incomplete presubmit job is built from the
    first element of its pull-request ref list; when every incomplete
    presubmit job of the input has at least one pull-request ref, that
    access is always in range, and so is every other one: the run does
    not panic. *)
Theorem C9_first_pull_ref_in_range l st r :
  (∀ j pj, l !! j = Some pj → eligible pj = true → is_Some (firstPull pj)) →
  run l = (st, r) →
  r ≠ Panicked ∧
  (∀ k j, dupes st !! k = Some j →
     ∃ pj refs p, l !! j = Some pj ∧ firstPull pj = Some (refs, p) ∧
                  k = identifier pj refs p).
Proof.
  intros Hpre H.
  destruct (run_outcome l st r H) as (cs & e & _ & _ & _ & Hd & Hr).
  split.
  - intros ->. destruct Hr as (_ & (j & pj & Hj & He & Hk) & _).
    destruct (Hpre j pj Hj He) as [[refs p] Hfp].
    unfold key in Hk. by rewrite Hfp in Hk.
  - intros k j Hkj. destruct (Hd k j Hkj) as (pj & Hj & He & Hk).
    unfold key in Hk. destruct (firstPull pj) as [[refs p]|] eqn:Hp; [|done].
    exists pj, refs, p. by simplify_eq.
Qed.


(** C2: if the replace call fails on the k-th job selected for
    cancellation, the run returns that error at once: no call follows the
    failed one; the k-1 jobs cancelled before it are aborted and persisted
    (their slots hold what the store returned); the slot of the k-th
    candidate, the slot being scanned and every later slot are as at call
    start. *)
Theorem C2_fail_fast_on_persistence l st r pre n rec post err :
  run l = (st, r) →
  trace st = pre ++ EvReplace n rec :: post →
  ReplaceProwJob pre n rec = inr err →
  r = Returned (Some err) ∧ post = [] ∧
  ∃ i st_i ok c rc,
    loop (seq 0 i) (entry l) = (st_i, Returned None) ∧
    body i st_i = (st, Stop (Returned (Some err))) ∧
    (c ≤ i)%nat ∧ (i < length l)%nat ∧
    NoDup ok ∧ (∀ x, x ∈ ok → (x < i)%nat) ∧ (c ∉ ok) ∧
    l !! c = Some rc ∧ rec = aborted rc ∧
    pre = history l ok ++ [EvCleanup rc] ∧
    replaced [] l ok (pjs st) ∧
    pjs st !! c = Some rc ∧
    (∀ j, (i ≤ j)%nat → pjs st !! j = l !! j).
Proof.
  intros H Htr Hfail.
  (* the run did not end normally, nor by a panic *)
  assert (Hr : ∃ err', r = Returned (Some err')).
  { destruct (run_outcome l st r H) as (cs & e & _ & _ & _ & _ & Hr).
    destruct r as [[err'|]|]; [eauto| |].
    - destruct Hr as (d & _ & _ & _ & Hrepl & Htr').
      rewrite Htr' in Htr.
      destruct (replaced_no_failure ReplaceProwJob _ _ _ _ _ _ _ _ Hrepl Htr Hfail).
    - destruct Hr as (_ & _ & Hrepl & Htr').
      rewrite Htr' in Htr.
      destruct (replaced_no_failure ReplaceProwJob _ _ _ _ _ _ _ _ Hrepl Htr Hfail). }
  destruct Hr as [err' ->].
  (* the iteration at which it stopped *)
  destruct (loop_stops cleanup ReplaceProwJob (length l) 0 (entry l) st _ H)
    as (i & st_i & Hi & Hpre & Hbody); [done|].
  simpl in Hbody.
  destruct (loop_outcome cleanup ReplaceProwJob l i st_i _ ltac:(lia) Hpre)
    as (ok & e & _ & Hnd & Hmem & _ & d & _ & Hd & HI & Hrepl & Htri).
  destruct HI as (Hwf & Hbest & _ & _ & _).
  destruct Hrepl as (Hlen & Hsame & Hrep).
  assert (Hlt : ∀ x, x ∈ ok → (x < i)%nat) by (intros x Hx; by destruct (Hmem x Hx)).
  assert (Hiok : i ∉ ok) by (intros Hin; apply Hlt in Hin; lia).
  destruct (lookup_lt_is_Some_2 l i Hi) as [pj Hpj].
  pose proof Hbody as Hb. unfold body in Hb.
  rewrite (Hsame i Hiok), Hpj, Hd in Hb.
  pose proof (select_cases (pjs st_i) d i pj) as Hsel.
  destruct (select (pjs st_i) d i pj) as [d'|c d'|]; [done| |by simplify_eq].
  destruct Hsel as (_ & k & prev & pp & _ & Hprev & _ & Hcase).
  destruct (Hwf k prev Hprev) as [Hprevi _].
  destruct (Hbest k prev Hprev) as [Hprevok _].
  assert (Hc : (c ≤ i)%nat ∧ c ∉ ok).
  { destruct Hcase as [(_ & -> & _)|(_ & -> & _)]; [split; [lia|done]|done]. }
  destruct Hc as [Hci Hcok].
  rewrite cancel_setDupes in Hb.
  pose proof (cancel_cases cleanup ReplaceProwJob c st_i) as Hcc.
  rewrite (Hsame c Hcok) in Hcc.
  destruct (lookup_lt_is_Some_2 l c ltac:(lia)) as [rc Hrc].
  rewrite Hrc, Htri in Hcc.
  destruct (ReplaceProwJob (history l ok ++ [EvCleanup rc]) _ _) as [npj|e'] eqn:Hrp;
    destruct Hcc as [lg Hcc]; rewrite Hcc in Hb; [done|].
  injection Hb as <- <-.
  (* the failed call is this one *)
  simpl in Htr.
  replace (history l ok ++ calls rc) with (history l (ok ++ [c])) in Htr
    by by rewrite history_app, (history_cons l c [] rc Hrc), app_nil_r.
  destruct (history_split l (ok ++ [c]) pre n rec post)
    as (m & c' & rc' & Hm & Hc' & -> & -> & -> & ->); [|done|].
  { intros x [Hx| ->%list_elem_of_singleton]%elem_of_app.
    - apply lookup_lt_is_Some_2. apply Hlt in Hx. lia.
    - eauto. }
  assert (Hmlen : m = length ok).
  { destruct (decide (m < length ok)%nat) as [Hmlt|Hmge].
    - rewrite lookup_app_l in Hm by done.
      destruct (Hrep m c' Hm) as (r0 & npj & Hr0 & Hok & _).
      rewrite take_app_le, app_nil_l in * by lia. congruence.
    - apply lookup_lt_Some in Hm. rewrite length_app in Hm. simpl in Hm. lia. }
  subst m. rewrite list_lookup_middle in Hm by done.
  assert (c' = c) as -> by congruence.
  assert (rc' = rc) as -> by congruence.
  rewrite take_app_length in *.
  assert (e' = err) as -> by congruence.
  split; [done|]. split.
  { rewrite drop_ge; [done|]. rewrite length_app. simpl. lia. }
  exists i, st_i, ok, c, rc. simpl.
  split; [done|]. split; [done|]. split; [done|]. split; [done|].
  split; [done|]. split; [done|]. split; [done|]. split; [done|].
  split; [done|]. split; [done|]. split; [done|]. split.
  - by rewrite (Hsame c Hcok).
  - intros j Hj. apply Hsame. intros Hin. apply Hlt in Hin. lia.
Qed.



End AborterClaims.

(** ** The aborter on the sample inputs *)

Lemma history_elem l cs c r :
  c ∈ cs → l !! c = Some r → EvCleanup r ∈ history l cs.
Proof.
  intros Hc Hr. induction cs as [|c' cs IH]; [by apply not_elem_of_nil in Hc|].
  unfold history in *. simpl. apply elem_of_app.
  apply elem_of_cons in Hc as [<-|Hc].
  - left. rewrite Hr. by left.
  - right. by apply IH.
Qed.

Lemma pair_with_snd {A B} (x : A * B) (b : B) : snd x = b → x = (fst x, b).
Proof. destruct x. simpl. by intros ->. Qed.

(** C1, witness: the run on [Sample.chain] succeeds and keeps the newest
    job of the key. *)
Lemma C1_witness :
  snd (TerminateOlderPresubmitJobs Sample.cleanupOk Sample.store Sample.chain)
    = Returned None ∧
  dedupOutcome TowardEarlier Sample.chain
    (fst (TerminateOlderPresubmitJobs Sample.cleanupOk Sample.store Sample.chain)).
Proof.
  split; [vm_compute; reflexivity|].
  apply (C1_dedup_keeps_newest_earlier_on_ties Sample.cleanupOk Sample.store).
  apply pair_with_snd. vm_compute; reflexivity.
Defined.

(** C1, counterexample: of two jobs of one key started at the same instant,
    the run cancels the one at the later position and keeps the earlier;
    the outcome claimed, with ties going to the later position, does not
    hold. *)
Lemma C1_ties_toward_later_counterexample :
  snd (TerminateOlderPresubmitJobs Sample.cleanupOk Sample.store Sample.tied)
    = Returned None ∧
  ¬ dedupOutcome TowardLater Sample.tied
      (fst (TerminateOlderPresubmitJobs Sample.cleanupOk Sample.store Sample.tied)).
Proof.
  split; [vm_compute; reflexivity|].
  intros (cs & _ & _ & Hkeep & Htr & _).
  set (first := Sample.presubmit "first" "unit" 7 100).
  set (second := Sample.presubmit "second" "unit" 7 100).
  set (k := {| job := "unit"; organization := "org"; repository := "repo";
               pullRequest := 7 |}).
  assert (M0 : member Sample.tied k 0) by (by exists first).
  assert (M1 : member Sample.tied k 1) by (by exists second).
  destruct (Hkeep k 0%nat M0) as (r & Mr & Hr & Hall).
  destruct (Hall 1%nat M1) as (_ & Hwin & _).
  destruct (Hall 0%nat M0) as (_ & _ & Hin).
  assert (r = 1%nat) as ->.
  { pose proof (member_lt _ _ _ Mr) as Hlt. simpl in Hlt.
    assert (r = 0 ∨ r = 1)%nat as [->| ->] by lia; [|done].
    specialize (Hwin eq_refl). simpl in Hwin. lia. }
  specialize (Hin ltac:(lia)).
  pose proof (history_elem Sample.tied cs 0 first Hin eq_refl) as Hev.
  rewrite <- Htr in Hev.
  apply elem_of_cons in Hev as [Hev|Hev]; [discriminate|].
  apply elem_of_cons in Hev as [Hev|Hev]; [discriminate|].
  by apply not_elem_of_nil in Hev.
Qed.

(** C2, witness: on [Sample.chain] the store refuses job "a", the second
    job selected for cancellation; the run returns that error and job "a"
    keeps its slot. *)
Lemma C2_witness :
  Sample.refusing
    (calls (Sample.presubmit "b" "unit" 7 100) ++
     [EvCleanup (Sample.presubmit "a" "unit" 7 100)])
    "a" (aborted (Sample.presubmit "a" "unit" 7 100)) = inr "conflict" ∧
  snd (TerminateOlderPresubmitJobs Sample.cleanupOk Sample.refusing Sample.chain)
    = Returned (Some "conflict").
Proof.
  split; [vm_compute; reflexivity|].
  destruct (C2_fail_fast_on_persistence Sample.cleanupOk Sample.refusing
              Sample.chain
              (fst (TerminateOlderPresubmitJobs Sample.cleanupOk Sample.refusing
                      Sample.chain))
              (snd (TerminateOlderPresubmitJobs Sample.cleanupOk Sample.refusing
                      Sample.chain))
              (calls (Sample.presubmit "b" "unit" 7 100) ++
               [EvCleanup (Sample.presubmit "a" "unit" 7 100)])
              "a" (aborted (Sample.presubmit "a" "unit" 7 100)) [] "conflict")
    as [Hr _];
    [apply surjective_pairing|vm_compute; reflexivity..|exact Hr].
Defined.

(** C3, witness: the finished job of [Sample.chain] keeps its slot. *)
Lemma C3_witness :
  Complete (SetComplete (Sample.presubmit "e" "unit" 7 400)) = true ∧
  pjs (fst (TerminateOlderPresubmitJobs Sample.cleanupOk Sample.store Sample.chain))
    !! 4%nat = Some (SetComplete (Sample.presubmit "e" "unit" 7 400)).
Proof.
  split; [vm_compute; reflexivity|].
  destruct (C3_completed_and_other_kinds_untouched Sample.cleanupOk Sample.store
              Sample.chain
              (fst (TerminateOlderPresubmitJobs Sample.cleanupOk Sample.store
                      Sample.chain))
              (snd (TerminateOlderPresubmitJobs Sample.cleanupOk Sample.store
                      Sample.chain))
              4%nat (SetComplete (Sample.presubmit "e" "unit" 7 400)))
    as [Hslot _];
    [apply surjective_pairing|vm_compute; reflexivity
    |left; vm_compute; reflexivity|exact Hslot].
Defined.



(** C9, witness: every job of [Sample.chain] carries a pull-request ref,
    and the run does not panic. *)
Lemma C9_witness :
  (∀ j pj, Sample.chain !! j = Some pj → eligible pj = true →
           is_Some (firstPull pj)) ∧
  snd (TerminateOlderPresubmitJobs Sample.cleanupOk Sample.store Sample.chain)
    ≠ Panicked.
Proof.
  assert (Hpre : ∀ j pj, Sample.chain !! j = Some pj → eligible pj = true →
                         is_Some (firstPull pj)).
  { intros j pj Hj _.
    destruct j as [|[|[|[|[|j]]]]]; simpl in Hj; [..|discriminate];
      injection Hj as <-; eexists; reflexivity. }
  split; [exact Hpre|].
  destruct (C9_first_pull_ref_in_range Sample.cleanupOk Sample.store Sample.chain
              (fst (TerminateOlderPresubmitJobs Sample.cleanupOk Sample.store
                      Sample.chain))
              (snd (TerminateOlderPresubmitJobs Sample.cleanupOk Sample.store
                      Sample.chain)) Hpre)
    as [Hr _]; [apply surjective_pairing|exact Hr].
Defined.


(** ** Further properties of the aborter *)

Lemma key_firstPull pj k : key pj = Some k → is_Some (firstPull pj).
Proof. unfold key. destruct (firstPull pj) as [[refs p]|]; [eauto|done]. Qed.

(** Without a repeated key the scan selects nothing. *)
Lemma scan_distinct l :
  distinctKeys l → ∀ m i d cs e,
  WF l d i → scan l (seq i m) d = (cs, e) → cs = [].
Proof.
  intros Hdist. induction m as [|m IH]; intros i d cs e Hwf Hs.
  - simpl in Hs. by simplify_eq.
  - simpl in Hs. destruct (l !! i) as [pj|] eqn:Hi; [|by simplify_eq].
    pose proof (WF_step l d i pj Hwf Hi) as Hstep.
    pose proof (select_cases l d i pj) as Hsel.
    destruct (select l d i pj) as [d'|c d'|]; [|exfalso|by simplify_eq].
    + destruct Hstep as [Hwf' _]. by eapply (IH (S i) d').
    + destruct Hsel as (He & k & prev & pp & Hk & Hd & _ & _).
      destruct (Hwf k prev Hd) as [Hlt Hm].
      assert (Hmi : member l k i) by by exists pj.
      specialize (Hdist k prev i Hm Hmi). lia.
Qed.

(** A scan that reaches the end of the slice met a first pull-request ref
    on every incomplete presubmit job. *)
Lemma scan_done_keys l : ∀ m i d cs d',
  scan l (seq i m) d = (cs, ScanDone d') →
  ∀ j pj, (i ≤ j < i + m)%nat → l !! j = Some pj → eligible pj = true →
          is_Some (firstPull pj).
Proof.
  induction m as [|m IH]; intros i d cs d' Hs j pj Hj Hl He; [lia|].
  simpl in Hs. destruct (l !! i) as [pj0|] eqn:Hi; [|by simplify_eq].
  pose proof (select_cases l d i pj0) as Hsel.
  assert (Hhere : j = i → (∃ k, key pj0 = Some k) → is_Some (firstPull pj)).
  { intros -> [k Hk]. simplify_eq. by eapply key_firstPull. }
  destruct (select l d i pj0) as [d0|c d0|]; [| |by simplify_eq].
  - destruct (decide (j = i)) as [Hji|Hji].
    + apply Hhere; [done|]. subst j. simplify_eq.
      destruct Hsel as [[? _]|(_ & k & Hk & _)]; [congruence|eauto].
    + apply (IH (S i) d0 cs d' Hs j pj); [lia|done|done].
  - destruct (scan l (seq (S i) m) d0) as [cs' e'] eqn:Hs'. simplify_eq.
    destruct (decide (j = i)) as [Hji|Hji].
    + apply Hhere; [done|]. destruct Hsel as (_ & k & _ & _ & Hk & _). eauto.
    + apply (IH (S i) d0 cs' d' Hs' j pj); [lia|done|done].
Qed.

Section AborterExtras.

Variable cleanup : list Event → ProwJob → option error.
Variable ReplaceProwJob : list Event → string → ProwJob → ProwJob + error.

Local Abbreviation run := (TerminateOlderPresubmitJobs cleanup ReplaceProwJob).

(** X1: when no two incomplete presubmit jobs of the input share an
    identity key (and each of them has a first pull-request ref), the run
    returns nil without calling cleanup or the store, and leaves the slice
    as it was. *)
Theorem X1_distinct_keys_nothing_cancelled l st r :
  (∀ j pj, l !! j = Some pj → eligible pj = true → is_Some (firstPull pj)) →
  distinctKeys l →
  run l = (st, r) →
  r = Returned None ∧ trace st = [] ∧ pjs st = l.
Proof.
  intros Hrefs Hdist H.
  destruct (run_outcome cleanup ReplaceProwJob l st r H)
    as (cs & e & Hs & _ & _ & _ & Hr).
  assert (cs = []) as ->.
  { eapply (scan_distinct l Hdist); [|exact Hs].
    intros k j Hkj. by rewrite lookup_empty in Hkj. }
  destruct r as [[err|]|].
  - destruct Hr as (ok & c & rest & _ & Hcs & _). by destruct ok.
  - destruct Hr as (d & _ & _ & _ & (Hlen & Hsame & _) & Htr).
    split; [done|]. split; [done|].
    apply list_eq. intros j. apply Hsame, not_elem_of_nil.
  - destruct Hr as (_ & (j & pj & Hj & He & Hk) & _).
    destruct (Hrefs j pj Hj He) as [[refs p] Hfp].
    unfold key in Hk. by rewrite Hfp in Hk.
Qed.

(** X2: an incomplete presubmit job without a first pull-request ref
    ([Refs] nil or [Pulls] empty) keeps the run from returning nil: the
    run panics on it, unless a replace call failed before. *)
Theorem X2_missing_pull_ref_never_returns_nil l st r j pj :
  l !! j = Some pj → eligible pj = true → firstPull pj = None →
  run l = (st, r) →
  r = Panicked ∨ ∃ err, r = Returned (Some err).
Proof.
  intros Hj He Hfp H.
  destruct (run_outcome cleanup ReplaceProwJob l st r H)
    as (cs & e & Hs & _ & _ & _ & Hr).
  destruct r as [[err|]|]; [eauto| |by left].
  destruct Hr as (d & -> & _).
  destruct (scan_done_keys l _ _ _ _ _ Hs j pj) as [x Hx];
    [|done|done|congruence].
  apply lookup_lt_Some in Hj. lia.
Qed.

(** X3: on a successful run, every incomplete presubmit job that has a newer
    version (a job of the same identity key with a strictly later start
    time) is aborted: cleanup is called on its record, its aborted record
    is handed to the store, and its slot holds what the store returned.  A
    job that started strictly later than every other job of its key keeps
    its slot. *)
Theorem X3_jobs_with_a_newer_version_are_aborted l st k j :
  run l = (st, Returned None) → member l k j →
  ((∃ j', member l k j' ∧ start l j < start l j') →
   ∃ old npj pre post,
     l !! j = Some old ∧
     trace st = pre ++ calls old ++ post ∧
     ReplaceProwJob (pre ++ [EvCleanup old])
       (Name (ObjectMeta_ (aborted old))) (aborted old) = inl npj ∧
     pjs st !! j = Some npj) ∧
  ((∀ j', member l k j' → j' ≠ j → start l j' < start l j) →
   pjs st !! j = l !! j).
Proof.
  intros H Hj.
  destruct (run_outcome cleanup ReplaceProwJob l st _ H)
    as (cs & e & _ & _ & _ & _ & d & _ & _ & HI & (_ & Hsame & Hrep) & Htr).
  destruct (Inv_keepsNewest l d cs HI k j Hj) as (r & Hr & Hnin & Hall).
  split.
  - intros (j' & Hj' & Hlt).
    destruct (Hall j' Hj') as (Hle & _ & _).
    destruct (Hall j Hj) as (_ & _ & Hin).
    assert (Hjr : j ≠ r) by (intros ->; lia).
    destruct (list_elem_of_lookup_1 _ _ (Hin Hjr)) as [m Hm].
    destruct (Hrep m j Hm) as (old & npj & Hold & Hok & Hslot).
    exists old, npj, (history l (take m cs)), (history l (drop (S m) cs)).
    split; [done|]. split; [|done].
    rewrite Htr, <- (take_drop_middle cs m j Hm) at 1.
    by rewrite history_app, (history_cons l j _ old Hold).
  - intros Hnewest. apply Hsame.
    destruct (decide (r = j)) as [->|Hne]; [done|].
    destruct (Hall j Hj) as (Hle & _ & _).
    specialize (Hnewest r Hr Hne). lia.
Qed.

(** X4: running the aborter again on the slice left by a successful run
    does nothing, with any cleanup and any store, provided the store of
    the first run answered the aborted records with records that are
    complete (as does a store that returns what it is handed): the second
    run returns nil, makes no call and changes no slot. *)
Theorem X4_second_run_does_nothing l st
    (cleanup' : list Event → ProwJob → option error)
    (ReplaceProwJob' : list Event → string → ProwJob → ProwJob + error) st' r' :
  (∀ h n old npj, ReplaceProwJob h n (aborted old) = inl npj →
                  eligible npj = false) →
  run l = (st, Returned None) →
  TerminateOlderPresubmitJobs cleanup' ReplaceProwJob' (pjs st) = (st', r') →
  r' = Returned None ∧ trace st' = [] ∧ pjs st' = pjs st.
Proof.
  intros Hstore H H'.
  destruct (run_outcome cleanup ReplaceProwJob l st _ H)
    as (cs & e & Hs & _ & _ & _ & d & -> & _ & HI & (Hlen & Hsame & Hrep) & _).
  (* a job still incomplete after the run was not cancelled *)
  assert (Hkept : ∀ j pj, pjs st !! j = Some pj → eligible pj = true →
                          (j ∉ cs) ∧ l !! j = Some pj).
  { intros j pj Hj He.
    assert (Hnin : j ∉ cs).
    { intros [m Hm]%list_elem_of_lookup_1.
      destruct (Hrep m j Hm) as (old & npj & _ & Hok & Hslot).
      rewrite app_nil_l in Hok. apply Hstore in Hok. congruence. }
    split; [done|]. by rewrite <- (Hsame j Hnin). }
  assert (Hmem : ∀ k j, member (pjs st) k j → (j ∉ cs) ∧ member l k j).
  { intros k j (pj & Hj & He & Hk). destruct (Hkept j pj Hj He) as [? ?].
    split; [done|]. by exists pj. }
  destruct (run_outcome cleanup' ReplaceProwJob' (pjs st) st' r' H')
    as (cs' & e' & Hs' & _ & _ & _ & Hr').
  assert (cs' = []) as ->.
  { eapply (scan_distinct (pjs st)); [|intros k j Hkj; by rewrite lookup_empty in Hkj|exact Hs'].
    intros k i j Hi Hj.
    destruct (Hmem k i Hi) as [Hic Hil]. destruct (Hmem k j Hj) as [Hjc Hjl].
    destruct (Inv_keepsNewest l d cs HI k i Hil) as (r & _ & _ & Hall).
    destruct (Hall i Hil) as (_ & _ & Hir). destruct (Hall j Hjl) as (_ & _ & Hjr).
    destruct (decide (i = r)) as [->|Hne]; [|by destruct Hic; apply Hir].
    destruct (decide (j = r)) as [->|Hne']; [done|by destruct Hjc; apply Hjr]. }
  destruct r' as [[err|]|].
  - destruct Hr' as (ok & c & rest & _ & Hcs & _). by destruct ok.
  - destruct Hr' as (d' & _ & _ & _ & (_ & Hsame' & _) & Htr').
    split; [done|]. split; [done|].
    apply list_eq. intros j. apply Hsame', not_elem_of_nil.
  - destruct Hr' as (_ & (j & pj & Hj & He & Hk) & _).
    destruct (Hkept j pj Hj He) as [_ Hl].
    assert (Hfp : is_Some (firstPull pj)).
    { apply (scan_done_keys l _ _ _ _ _ Hs j pj); [|done|done].
      apply lookup_lt_Some in Hl. lia. }
    destruct Hfp as [[refs p] Hx]. unfold key in Hk. by rewrite Hx in Hk.
Qed.

End AborterExtras.

(** ** The string form of an identity key *)

(** X5: the string form tells apart the pull requests of one job of one
    repository: two identifiers with the same job, organization and
    repository and the same string are equal. *)
Theorem X5_String_tells_pull_requests_apart i i' :
  job i = job i' → organization i = organization i' →
  repository i = repository i' →
  jobIndentifier_String i = jobIndentifier_String i' → i = i'.
Proof.
  destruct i as [j o r p], i' as [j' o' r' p'].
  unfold jobIndentifier_String. simpl. intros <- <- <- Heq.
  do 6 apply (inj (String.app _)) in Heq.
  apply (inj pretty) in Heq. by subst.
Qed.

(** ** The further properties on the sample inputs *)

(** X1, witness: two jobs of different pull requests. *)
Lemma X1_witness :
  distinctKeys Sample.apart ∧
  snd (TerminateOlderPresubmitJobs Sample.cleanupOk Sample.store Sample.apart)
    = Returned None.
Proof.
  assert (Hrefs : ∀ j pj, Sample.apart !! j = Some pj → eligible pj = true →
                          is_Some (firstPull pj)).
  { intros j pj Hj _.
    destruct j as [|[|j]]; simpl in Hj; [..|discriminate];
      injection Hj as <-; eexists; reflexivity. }
  assert (Hdist : distinctKeys Sample.apart).
  { intros k i j (pi & Hi & _ & Hki) (pj & Hj & _ & Hkj).
    destruct i as [|[|i]]; simpl in Hi; [..|discriminate];
      destruct j as [|[|j]]; simpl in Hj; try discriminate;
      injection Hi as <-; injection Hj as <-;
      vm_compute in Hki; vm_compute in Hkj; congruence. }
  split; [exact Hdist|].
  destruct (X1_distinct_keys_nothing_cancelled Sample.cleanupOk Sample.store
              Sample.apart
              (fst (TerminateOlderPresubmitJobs Sample.cleanupOk Sample.store
                      Sample.apart))
              (snd (TerminateOlderPresubmitJobs Sample.cleanupOk Sample.store
                      Sample.apart)) Hrefs Hdist)
    as [Hr _]; [apply surjective_pairing|exact Hr].
Defined.

(** X2, witness: a job without refs after the two of [Sample.tied]. *)
Lemma X2_witness :
  firstPull Sample.bare = None ∧
  (snd (TerminateOlderPresubmitJobs Sample.cleanupOk Sample.store
          (Sample.tied ++ [Sample.bare])) = Panicked ∨
   ∃ err,
     snd (TerminateOlderPresubmitJobs Sample.cleanupOk Sample.store
            (Sample.tied ++ [Sample.bare])) = Returned (Some err)).
Proof.
  split; [vm_compute; reflexivity|].
  apply (X2_missing_pull_ref_never_returns_nil Sample.cleanupOk Sample.store
           (Sample.tied ++ [Sample.bare])
           (fst (TerminateOlderPresubmitJobs Sample.cleanupOk Sample.store
                   (Sample.tied ++ [Sample.bare])))
           (snd (TerminateOlderPresubmitJobs Sample.cleanupOk Sample.store
                   (Sample.tied ++ [Sample.bare])))
           2%nat Sample.bare);
    [vm_compute; reflexivity..|apply surjective_pairing].
Defined.

(** X3, witness: job "a" of [Sample.chain] has the newer version "c". *)
Lemma X3_witness :
  start Sample.chain 0 < start Sample.chain 2 ∧
  ∃ npj,
    pjs (fst (TerminateOlderPresubmitJobs Sample.cleanupOk Sample.store
                Sample.chain)) !! 0%nat = Some npj.
Proof.
  split; [vm_compute; reflexivity|].
  destruct (X3_jobs_with_a_newer_version_are_aborted Sample.cleanupOk
              Sample.store Sample.chain
              (fst (TerminateOlderPresubmitJobs Sample.cleanupOk Sample.store
                      Sample.chain))
              {| job := "unit"; organization := "org"; repository := "repo";
                 pullRequest := 7 |} 0%nat)
    as [Hnewer _].
  - apply pair_with_snd. vm_compute; reflexivity.
  - exists (Sample.presubmit "a" "unit" 7 100). by vm_compute.
  - destruct Hnewer as (old & npj & _ & _ & _ & _ & _ & Hslot).
    + exists 2%nat. split; [|vm_compute; reflexivity].
      exists (Sample.presubmit "c" "unit" 7 300). by vm_compute.
    + exists npj. exact Hslot.
Defined.

(** X4, witness: a second run on the outcome of [Sample.chain], with a
    failing cleanup and a store that refuses job "a". *)
Lemma X4_witness :
  snd (TerminateOlderPresubmitJobs Sample.cleanupOk Sample.store Sample.chain)
    = Returned None ∧
  snd (TerminateOlderPresubmitJobs Sample.cleanupFails Sample.refusing
         (pjs (fst (TerminateOlderPresubmitJobs Sample.cleanupOk Sample.store
                      Sample.chain))))
    = Returned None.
Proof.
  split; [vm_compute; reflexivity|].
  destruct (X4_second_run_does_nothing Sample.cleanupOk Sample.store
              Sample.chain
              (fst (TerminateOlderPresubmitJobs Sample.cleanupOk Sample.store
                      Sample.chain))
              Sample.cleanupFails Sample.refusing
              (fst (TerminateOlderPresubmitJobs Sample.cleanupFails
                      Sample.refusing
                      (pjs (fst (TerminateOlderPresubmitJobs Sample.cleanupOk
                                   Sample.store Sample.chain)))))
              (snd (TerminateOlderPresubmitJobs Sample.cleanupFails
                      Sample.refusing
                      (pjs (fst (TerminateOlderPresubmitJobs Sample.cleanupOk
                                   Sample.store Sample.chain))))))
    as [Hr _].
  - intros h n old npj Hst. injection Hst as <-. reflexivity.
  - apply pair_with_snd. vm_compute; reflexivity.
  - apply surjective_pairing.
  - exact Hr.
Defined.

(** X5, witness: the string form of a key, and two spellings of it. *)
Lemma X5_witness :
  jobIndentifier_String
    {| job := "unit"; organization := "org"; repository := "repo";
       pullRequest := 7 |} = "unit org/repo#7" ∧
  {| job := "unit"; organization := "org"; repository := "repo";
     pullRequest := 7 |} =
  {| job := "unit"; organization := "org"; repository := "repo";
     pullRequest := 3 + 4 |}.
Proof.
  split; [vm_compute; reflexivity|].
  apply X5_String_tells_pull_requests_apart; vm_compute; reflexivity.
Defined.

(** * The claims about the skip resolver *)

Module SkipFacts.
Import Skip.

Lemma filter_none {A} (P : A → Prop) `{∀ x, Decision (P x)} (l : list A) :
  (∀ x, x ∈ l → ¬ P x) → filter P l = [].
Proof.
  induction l as [|x l IH]; intros Hl; [done|].
  rewrite filter_cons, decide_False by (apply Hl; by left).
  apply IH. intros y Hy. apply Hl. by right.
Qed.

Lemma filter_unique {A B} (f : A → B) `{EqDecision B}
    (P : A → Prop) `{∀ x, Decision (P x)} (l : list A) (x : A) :
  NoDup (map f l) → x ∈ l →
  filter (fun y => P y ∧ f y = f x) l = if decide (P x) then [x] else [].
Proof.
  induction l as [|y l IH]; intros Hnd Hx; [by apply not_elem_of_nil in Hx|].
  simpl in Hnd. apply NoDup_cons in Hnd as [Hy Hnd].
  rewrite filter_cons.
  apply elem_of_cons in Hx as [->|Hx].
  - rewrite (filter_none _ l).
    + destruct (decide (P y)); [by rewrite decide_True|].
      by rewrite decide_False by (by intros [? _]).
    + intros z Hz [_ Hfz]. apply Hy. rewrite <- Hfz.
      apply list_elem_of_fmap. eauto.
  - rewrite decide_False; [by apply IH|].
    intros [_ Hfy]. apply Hy. rewrite Hfy. apply list_elem_of_fmap. eauto.
Qed.

Section Resolver.

Variable skipRe : string → bool.
Variable TriggerMatches : Presubmit → string → bool.
Variable CreateStatus : list Write → Write → option error.

Local Abbreviation eligible := (eligible TriggerMatches).
Local Abbreviation post := (post CreateStatus).
Local Abbreviation resolve := (resolve TriggerMatches CreateStatus).
Local Abbreviation ResolveSkips := (ResolveSkips TriggerMatches CreateStatus).
Local Abbreviation handle := (handle skipRe TriggerMatches CreateStatus).

Lemma post_issued w o : issued (post w o) = issued o ++ [w].
Proof. unfold Skip.post. by destruct (CreateStatus _ _). Qed.

Lemma post_posted w o c :
  Context (status w) ≠ c → posted (post w o) !! c = posted o !! c.
Proof.
  intros Hne. unfold Skip.post. destruct (CreateStatus _ _); [done|].
  simpl. by rewrite lookup_insert_ne.
Qed.

(** The writes of an invocation are those of the eligible definitions, one
    each, in the order of the definitions. *)
Lemma resolve_issued e existing : ∀ presubmits o,
  issued (resolve e existing presubmits o) =
  issued o ++
    map (skipWrite e) (filter (fun p => eligible e existing p = true) presubmits).
Proof.
  induction presubmits as [|p rest IH]; intros o; simpl.
  - by rewrite app_nil_r.
  - rewrite IH, filter_cons. destruct (eligible e existing p) eqn:He.
    + rewrite decide_True by done. rewrite post_issued.
      by rewrite <- app_assoc.
    + by rewrite decide_False by done.
Qed.

Lemma resolve_posted e existing c : ∀ presubmits o,
  (∀ p, p ∈ presubmits → eligible e existing p = true → context p ≠ c) →
  posted (resolve e existing presubmits o) !! c = posted o !! c.
Proof.
  induction presubmits as [|p rest IH]; intros o Hne; [done|].
  simpl. rewrite IH by (intros q Hq; apply Hne; by right).
  destruct (eligible e existing p) eqn:He; [|done].
  apply post_posted. simpl. apply Hne; [by left|done].
Qed.

Lemma writesTo_resolve e existing c presubmits :
  writesTo c (ResolveSkips e presubmits existing) =
  map (skipWrite e)
    (filter (fun p => eligible e existing p = true ∧ context p = c) presubmits).
Proof.
  unfold writesTo, Skip.ResolveSkips. rewrite resolve_issued. simpl.
  induction presubmits as [|p rest IH]; [done|].
  rewrite !filter_cons.
  destruct (decide (eligible e existing p = true)) as [He|He].
  - simpl. rewrite filter_cons. simpl.
    destruct (decide (context p = c)) as [Hc|Hc].
    + rewrite decide_True by done. simpl. by rewrite IH.
    + by rewrite decide_False by (by intros [_ ?]).
  - by rewrite decide_False by (by intros [? _]).
Qed.

Lemma handle_cases e presubmits existing :
  fst (handle e presubmits existing) = ResolveSkips e presubmits existing ∨
  fst (handle e presubmits existing) =
    {| posted := existing; issued := []; failures := [] |}.
Proof. unfold Skip.handle. destruct (gate skipRe e); [by left|by right]. Qed.

Lemma eligible_spec e existing p :
  eligible e existing p = true ↔
  Optional p = true ∧ failing existing (context p) ∧
  TriggerMatches p (Body e) = false.
Proof.
  unfold Skip.eligible, failing. split.
  - intros H. apply andb_true_iff in H as [H Ht].
    apply andb_true_iff in H as [Ho Hs].
    split; [done|]. split; [|by apply negb_true_iff].
    destruct (existing !! context p) as [s|]; [by exists s|done].
  - intros (Ho & (s & Hs & Hf) & Ht). by rewrite Ho, Hs, Hf, Ht.
Qed.




End Resolver.

(** ** The resolver on the sample inputs *)







End SkipFacts.
